(** * GTASceneSync: the IDE and IPL exporters of [GTASceneSync.py]

    A shallow embedding of the export core of the add-on: the two name
    cleaners ([clean_name], [clean_collection_name]), the operators
    [ExportAsIDE] and [ExportAsIPL] with their id allocation, and the file
    writes they perform, followed by the properties of that code.

    Conventions.
    - A Python [str] is a [string]; its characters are the code points below
      256.  On that range [\d] is exactly the digits 0-9 and the only
      characters that fold to the letters of [.dff] or [.ide] are their
      upper-case ASCII forms.
    - A Python [int] is a [Z].
    - A [dict] keeps its insertion order (the IDE exporter iterates over it),
      so it is an association list with unique keys.
    - Floats, matrices and quaternions belong to [mathutils]; the exporter
      only moves them around, negates components and formats them, so they
      are an interface ([Host]) with an exact instance for examples.
    - A write reaches the file when [f.write] returns; a write that raises
      leaves in the file what the writes before it put there. *)

From stdpp Require Import base option list strings gmap pretty.
From Stdlib Require Import Ascii ZArith Lia.

Local Open Scope Z_scope.

(** ** Characters and strings *)

Definition is_digit (a : ascii) : bool :=
  let n := N_of_ascii a in (48 <=? n)%N && (n <=? 57)%N.

(** [str.lower] on one character, for the ASCII letters. *)
Definition ascii_lower (a : ascii) : ascii :=
  let n := N_of_ascii a in
  if (65 <=? n)%N && (n <=? 90)%N then ascii_of_N (n + 32) else a.

Fixpoint lower (s : string) : string :=
  match s with
  | "" => ""
  | String a s' => String (ascii_lower a) (lower s')
  end.

(** All characters of [s] are digits. *)
Fixpoint digits (s : string) : bool :=
  match s with
  | "" => true
  | String a s' => is_digit a && digits s'
  end.

(** [c] occurs in [s]. *)
Fixpoint occurs (c : ascii) (s : string) : bool :=
  match s with
  | "" => false
  | String a s' => bool_decide (a = c) || occurs c s'
  end.

(** [s.endswith(suffix)] *)
Definition endswith (s suffix : string) : bool :=
  String.prefix (String.rev suffix) (String.rev s).


(** ** The fragment of Python's [re] used by the add-on

    Both patterns are a sequence of single characters, an optional greedy
    [\d+], and the anchor [$].  [match_here] is the backtracking matcher at
    one position and returns the length of the match; [re_sub] is
    [re.sub(pattern, repl, s)]: every leftmost non-overlapping match is
    replaced. *)
Module Re.

Inductive cls := Chr (c : ascii) | Digit.
Inductive item := One (c : cls) | Plus (c : cls) | Eol.
Definition pattern := list item.

(** One character against one class; [ic] is [re.IGNORECASE]. *)
Definition cls_matches (ic : bool) (c : cls) (a : ascii) : bool :=
  match c with
  | Chr x =>
      if ic then bool_decide (ascii_lower a = ascii_lower x)
      else bool_decide (a = x)
  | Digit => is_digit a
  end.

(** [$] without [re.MULTILINE]: the end of the string, or just before a
    newline that ends the string. *)
Definition at_eol (s : string) : bool :=
  match s with
  | "" => true
  | String a "" => bool_decide (a = "010"%char)
  | _ => false
  end.

(** Greedy [c+] followed by the rest [k] of the pattern: as many characters
    as possible, giving them back one at a time while [k] fails. *)
Fixpoint match_plus (test : ascii → bool) (k : string → option nat)
    (s : string) : option nat :=
  match s with
  | String a s' =>
      if test a then
        match match_plus test k s' with
        | Some n => Some (S n)
        | None => S <$> k s'
        end
      else None
  | "" => None
  end.

Fixpoint match_here (ic : bool) (p : pattern) : string → option nat :=
  match p with
  | [] => λ _, Some 0%nat
  | it :: p' =>
      let k := match_here ic p' in
      match it with
      | Eol => λ s, if at_eol s then k s else None
      | One c => λ s,
          match s with
          | String a s' => if cls_matches ic c a then S <$> k s' else None
          | "" => None
          end
      | Plus c => match_plus (cls_matches ic c) k
      end
  end.

(** The scan of [re.sub]: [skip] characters of the current match are still
    to be dropped.  A match of length 0 inserts [repl] and moves on by one
    character. *)
Fixpoint sub_go (ic : bool) (p : pattern) (repl : string)
    (skip : nat) (s : string) : string :=
  match skip with
  | S k =>
      match s with
      | String _ s' => sub_go ic p repl k s'
      | "" => ""
      end
  | O =>
      match match_here ic p s with
      | Some (S k) =>
          repl +:+ match s with
                   | String _ s' => sub_go ic p repl k s'
                   | "" => ""
                   end
      | Some O =>
          repl +:+ match s with
                   | String a s' => String a (sub_go ic p repl 0 s')
                   | "" => ""
                   end
      | None =>
          match s with
          | String a s' => String a (sub_go ic p repl 0 s')
          | "" => ""
          end
      end
  end.

Definition re_sub (ic : bool) (p : pattern) (repl s : string) : string :=
  sub_go ic p repl 0 s.

End Re.

(** ** Helper functions of the add-on *)

(** The pattern [\.\d+$] *)
Definition digits_pattern : Re.pattern :=
  [Re.One (Re.Chr "."); Re.Plus Re.Digit; Re.Eol].

(** The pattern [\.dff$] *)
Definition dff_pattern : Re.pattern :=
  [Re.One (Re.Chr "."); Re.One (Re.Chr "d"); Re.One (Re.Chr "f");
   Re.One (Re.Chr "f"); Re.Eol].

(** [re.sub(r"\.\d+$", "", name)] *)
Definition clean_name (name : string) : string :=
  Re.re_sub false digits_pattern "" name.

(** [re.sub(r"\.dff$", "", name, flags=re.IGNORECASE)] *)
Definition clean_collection_name (name : string) : string :=
  Re.re_sub true dff_pattern "" name.

(** The anchor [$] as the rest of a pattern. *)
Definition eol_only (s : string) : option nat :=
  if Re.at_eol s then Some 0%nat else None.

Definition nl : string := String "010"%char "".

(** [x or y] on Python ints: [x] unless it is falsy (zero). *)
Definition int_or (x y : Z) : Z := if bool_decide (x = 0) then y else x.

(** [s or t] on Python strings: [s] unless it is empty. *)
Definition str_or (s t : string) : string :=
  if bool_decide (s = "") then t else s.

(** ** Insertion-ordered dictionaries *)
Module Dict.

Abbreviation t V := (list (string * V)).

Definition empty {V} : t V := [].

(** [d.get(k)] *)
Fixpoint get {V} (k : string) (d : t V) : option V :=
  match d with
  | [] => None
  | (k', v) :: d' => if bool_decide (k' = k) then Some v else get k d'
  end.

(** [k in d] *)
Definition contains {V} (k : string) (d : t V) : bool :=
  bool_decide (is_Some (get k d)).

(** [d[k] = v]: an existing key keeps its place, a new one goes last. *)
Fixpoint set {V} (k : string) (v : V) (d : t V) : t V :=
  match d with
  | [] => [(k, v)]
  | (k', v') :: d' =>
      if bool_decide (k' = k) then (k', v) :: d' else (k', v') :: set k v d'
  end.

Definition keys {V} (d : t V) : list string := d.*1.
Definition values {V} (d : t V) : list V := d.*2.
Definition items {V} (d : t V) : list (string * V) := d.

End Dict.

(** ** The host: [mathutils], [pathlib] and float formatting *)

Record Vector (F : Type) := mkVector { vec_x : F; vec_y : F; vec_z : F }.
Record Quaternion (F : Type) :=
  mkQuaternion { quat_w : F; quat_x : F; quat_y : F; quat_z : F }.
Arguments mkVector {F}.
Arguments vec_x {F}.
Arguments vec_y {F}.
Arguments vec_z {F}.
Arguments mkQuaternion {F}.
Arguments quat_w {F}.
Arguments quat_x {F}.
Arguments quat_y {F}.
Arguments quat_z {F}.

Inductive exn :=
| OSError (msg : string)
| AttributeError (msg : string)
| ValueError (msg : string).

(** [str(e)] *)
Definition exn_str (e : exn) : string :=
  match e with OSError m | AttributeError m | ValueError m => m end.

Class Host := {
  Float : Type;
  Matrix : Type;
  Path : Type;
  (** [-v] *)
  float_neg : Float → Float;
  (** [f"{v:.6f}"] *)
  format_6f : Float → string;
  (** [wm.to_translation()], [wm.to_quaternion()] *)
  to_translation : Matrix → Vector Float;
  to_quaternion : Matrix → Quaternion Float;
  (** [mathutils.Euler(v, 'XYZ').to_quaternion()] *)
  euler_xyz_to_quaternion : Float * Float * Float → Quaternion Float;
  (** [a @ b] on quaternions *)
  quat_matmul : Quaternion Float → Quaternion Float → Quaternion Float;
  (** [Path(s)], [p.suffix], [p.with_suffix(s)], [str(p)] *)
  path_of_str : string → Path;
  path_suffix : Path → string;
  path_with_suffix : Path → string → exn + Path;
  path_str : Path → string
}.

(** ** Scene data *)

Record Collection := { coll_name : string }.

(** [IDEFlagsProperties]; [ide_flag] holds the identifier of the chosen
    entry of [IDE_FLAGS]. *)
Record IDEFlagsProperties := {
  ide_flag : string;
  render_distance : Z;
  texture_name : string
}.

Record Object `{Host} := {
  obj_name : string;
  obj_type : string;
  users_collection : list Collection;
  ide_flags : IDEFlagsProperties;
  matrix_world : Matrix
}.

(** [gtass_model_id] is [None] while the scene property is not registered. *)
Record Scene := { gtass_model_id : option Z }.

Record Context `{Host} := {
  selected_objects : list Object;
  scene : Scene
}.

(** [o.type == 'MESH'] *)
Definition is_mesh `{Host} (o : Object) : bool :=
  bool_decide (obj_type o = "MESH").

(** ** Operators: state, reports, exceptions and files

    An operator runs on its own properties ([self]), the files on disk and
    the reports it has made.  [open_error] and [writes_ok] decide which
    calls of [open] and [f.write] raise [OSError]: [open] raises when
    [open_error] is set, and the [writes_ok] first writes succeed. *)

Inductive report_type := WARNING | ERROR | INFO.
Inductive op_result := FINISHED | CANCELLED | RUNNING_MODAL.

Record Disk := {
  files : gmap string string;
  open_error : option string;
  writes_ok : nat;
  write_error : string
}.

Record St (Self : Type) := {
  self : Self;
  disk : Disk;
  reports : list (report_type * string)
}.
Arguments self {Self}.
Arguments disk {Self}.
Arguments reports {Self}.

Definition M (Self A : Type) : Type := St Self → (exn + A) * St Self.

Global Instance M_ret {Self} : MRet (M Self) := λ A a st, (inr a, st).

Global Instance M_bind {Self} : MBind (M Self) := λ A B f m st,
  match m st with
  | (inr a, st') => f a st'
  | (inl e, st') => (inl e, st')
  end.

Definition raise {Self A} (e : exn) : M Self A := λ st, (inl e, st).

(** [try: m  except Exception as e: h e] *)
Definition try_except {Self A} (m : M Self A) (h : exn → M Self A) : M Self A :=
  λ st, match m st with
        | (inl e, st') => h e st'
        | r => r
        end.

Definition get_self {Self} : M Self Self := λ st, (inr (self st), st).

Definition put_self {Self} (s : Self) : M Self unit :=
  λ st, (inr tt, {| self := s; disk := disk st; reports := reports st |}).

(** [self.report({lvl}, msg)] *)
Definition report {Self} (lvl : report_type) (msg : string) : M Self unit :=
  λ st, (inr tt, {| self := self st; disk := disk st;
                    reports := reports st ++ [(lvl, msg)] |}).

Definition lift_exn {Self A} (r : exn + A) : M Self A :=
  match r with inl e => raise e | inr a => mret a end.

(** [open(path, 'w')]: the file is created or truncated; the handle is the
    path. *)
Definition fopen {Self} (path : string) : M Self string :=
  λ st,
    let d := disk st in
    match open_error d with
    | Some msg => (inl (OSError msg), st)
    | None =>
        (inr path,
         {| self := self st;
            disk := {| files := <[path := ""]> (files d);
                       open_error := open_error d;
                       writes_ok := writes_ok d;
                       write_error := write_error d |};
            reports := reports st |})
    end.

(** [f.write(s)] *)
Definition fwrite {Self} (f : string) (s : string) : M Self unit :=
  λ st,
    let d := disk st in
    match writes_ok d with
    | O => (inl (OSError (write_error d)), st)
    | S n =>
        (inr tt,
         {| self := self st;
            disk := {| files := alter (λ old, old +:+ s) f (files d);
                       open_error := open_error d;
                       writes_ok := n;
                       write_error := write_error d |};
            reports := reports st |})
    end.

(** [with open(path, 'w') as f: body f]; leaving the block closes the file,
    an exception of the body goes on to the caller. *)
Definition with_open {Self A} (path : string) (body : string → M Self A)
    : M Self A :=
  f ← fopen path; body f.

(** [for x in l: body x] *)
Fixpoint for_each {Self A} (l : list A) (body : A → M Self unit) : M Self unit :=
  match l with
  | [] => mret tt
  | x :: l' => body x;; for_each l' body
  end.

(** ** Canonical names

    [coll = obj.users_collection[0] if obj.users_collection else None]
    [clean_collection_name(coll.name) if coll else clean_name(obj.name)],
    the expression both exporters start from. *)
Definition base_name `{Host} (obj : Object) : string :=
  match head (users_collection obj) with
  | Some coll => clean_collection_name (coll_name coll)
  | None => clean_name (obj_name obj)
  end.

(** ** [ExportAsIDE] *)
Module ExportAsIDE.

Record props := { filepath : string; model_id : Z }.

(** One value of the [unique] dictionary:
    [(cur, props.texture_name, props.render_distance, props.ide_flag)]. *)
Definition entry : Type := Z * string * Z * string.

Definition entry_id (e : entry) : Z := e.1.1.1.

Section ops.
Context `{Host}.

(** [self.model_id or getattr(context.scene, "gtass_model_id", 4542)] *)
Definition start_id (slf : props) (context : Context) : Z :=
  int_or (model_id slf) (default 4542 (gtass_model_id (scene context))).

(** The loop that fills [unique]. *)
Fixpoint unique_loop (objs : list Object) (unique : Dict.t entry) (cur : Z)
    : Dict.t entry :=
  match objs with
  | [] => unique
  | obj :: rest =>
      let base := base_name obj in
      let props := ide_flags obj in
      if negb (Dict.contains base unique) then
        unique_loop rest
          (Dict.set base
             (cur, texture_name props, render_distance props, ide_flag props)
             unique)
          (cur + 1)
      else unique_loop rest unique cur
  end.

(** [f"{mid}, {name}, {txd}, {dist}, {flag}\n"] *)
Definition ide_line (it : string * entry) : string :=
  let '(name, (mid, txd, dist, flag)) := it in
  pretty mid +:+ ", " +:+ name +:+ ", " +:+ txd +:+ ", " +:+ pretty dist
    +:+ ", " +:+ flag +:+ nl.

(** The body of the [with] block. *)
Definition write_ide (f : string) (objs : list Object) (start : Z)
    : M props unit :=
  fwrite f ("objs" +:+ nl);;
  let unique := unique_loop objs Dict.empty start in
  for_each (Dict.items unique) (λ it, fwrite f (ide_line it));;
  fwrite f ("end" +:+ nl).

Definition execute (context : Context) : M props op_result :=
  let objs := filter (λ o, is_mesh o = true) (selected_objects context) in
  match objs with
  | [] => report WARNING "No mesh objects selected.";; mret CANCELLED
  | _ =>
      slf ← get_self;
      (if negb (endswith (lower (filepath slf)) ".ide")
       then put_self {| filepath := filepath slf +:+ ".ide";
                        model_id := model_id slf |}
       else mret tt);;
      slf ← get_self;
      let start := start_id slf context in
      failed ← try_except
        (with_open (filepath slf) (λ f, write_ide f objs start);;
         mret false)
        (λ e, report ERROR ("IDE export failed: " +:+ exn_str e);;
              mret true);
      if (failed : bool) then mret CANCELLED
      else
        report INFO ("IDE export complete: " +:+ filepath slf);;
        mret FINISHED
  end.

(** [invoke] up to the file selector: the prefill of [model_id]. *)
Definition invoke_model_id (slf : props) (context : Context) : Z :=
  if (bool_decide (model_id slf = 0) || bool_decide (model_id slf = 4542))
     && bool_decide (is_Some (gtass_model_id (scene context)))
  then default 0 (gtass_model_id (scene context))
  else model_id slf.

End ops.
End ExportAsIDE.

(** ** [ExportAsIPL] *)
Module ExportAsIPL.

Record props `{Host} := {
  filepath : string;
  model_id : Z;
  apply_default_rotation : bool;
  default_rotation : Float * Float * Float
}.

(** The fields of one line of the [inst] section. *)
Record inst `{Host} := {
  inst_id : Z;
  inst_name : string;
  inst_interior : Z;
  inst_pos : Vector Float;
  inst_rx : Float;
  inst_ry : Float;
  inst_rz : Float;
  inst_rw : Float;
  inst_lod : Z
}.

Section ops.
Context `{Host}.

Definition set_filepath (slf : props) (p : string) : props :=
  {| filepath := p; model_id := model_id slf;
     apply_default_rotation := apply_default_rotation slf;
     default_rotation := default_rotation slf |}.

Definition validate_filepath : M props unit :=
  slf ← get_self;
  let p := path_of_str (filepath slf) in
  p ← (if bool_decide (lower (path_suffix p) ≠ ".ipl")
       then lift_exn (path_with_suffix p ".ipl")
       else mret p);
  put_self (set_filepath slf (path_str p)).

(** [self.model_id or bpy.context.scene.gtass_model_id], where
    [bpy.context] is the context the operator runs in; the attribute is
    read only when [model_id] is zero, and reading it raises when the scene
    property is not registered. *)
Definition start_id (slf : props) (context : Context) : exn + Z :=
  if bool_decide (model_id slf = 0) then
    match gtass_model_id (scene context) with
    | Some v => inr v
    | None =>
        inl (AttributeError "'Scene' object has no attribute 'gtass_model_id'")
    end
  else inr (model_id slf).

(** The loop of [generate_mapping]. *)
Fixpoint mapping_loop (objs : list Object) (mapping : Dict.t Z) (cur : Z)
    : Dict.t Z :=
  match objs with
  | [] => mapping
  | o :: rest =>
      let name := base_name o in
      let name := str_or name "Unnamed" in
      if negb (Dict.contains name mapping) then
        mapping_loop rest (Dict.set name cur mapping) (cur + 1)
      else mapping_loop rest mapping cur
  end.

Definition generate_mapping (context : Context) (objs : list Object)
    : M props (Dict.t Z) :=
  slf ← get_self;
  cur ← lift_exn (start_id slf context);
  mret (mapping_loop objs Dict.empty cur).

(** What the loop body of [write_ipl] computes for one object. *)
Definition inst_of (slf : props) (mapping : Dict.t Z) (obj : Object) : inst :=
  let inter := 0 in
  let lod := -1 in
  let wm := matrix_world obj in
  let pos := to_translation wm in
  let base := to_quaternion wm in
  let base :=
    if apply_default_rotation slf then
      let off := euler_xyz_to_quaternion (default_rotation slf) in
      quat_matmul off base
    else base in
  let nm := base_name obj in
  let nm := str_or nm "Unnamed" in
  let mid := default (-1) (Dict.get nm mapping) in
  {| inst_id := mid; inst_name := nm; inst_interior := inter;
     inst_pos := pos;
     inst_rx := float_neg (quat_x base); inst_ry := quat_y base;
     inst_rz := float_neg (quat_z base); inst_rw := quat_w base;
     inst_lod := lod |}.

(** The formatted line of [write_ipl]. *)
Definition inst_line (i : inst) : string :=
  let fmt := format_6f in
  pretty (inst_id i) +:+ ", " +:+ inst_name i +:+ ", "
    +:+ pretty (inst_interior i) +:+ ", "
    +:+ fmt (vec_x (inst_pos i)) +:+ ", " +:+ fmt (vec_y (inst_pos i))
    +:+ ", " +:+ fmt (vec_z (inst_pos i)) +:+ ", "
    +:+ fmt (inst_rx i) +:+ ", " +:+ fmt (inst_ry i) +:+ ", "
    +:+ fmt (inst_rz i) +:+ ", " +:+ fmt (inst_rw i) +:+ ", "
    +:+ pretty (inst_lod i) +:+ nl.

Definition write_ipl (f : string) (objs : list Object) (mapping : Dict.t Z)
    : M props unit :=
  fwrite f ("# Exported with GTASceneSync" +:+ nl +:+ "inst" +:+ nl);;
  for_each objs (λ obj,
    slf ← get_self;
    fwrite f (inst_line (inst_of slf mapping obj)));;
  fwrite f ("end" +:+ nl).

Definition execute (context : Context) : M props op_result :=
  let objs := filter (λ o, is_mesh o = true) (selected_objects context) in
  match objs with
  | [] => report WARNING "No mesh objects selected.";; mret CANCELLED
  | _ =>
      validate_filepath;;
      mapping ← generate_mapping context objs;
      slf ← get_self;
      failed ← try_except
        (with_open (filepath slf) (λ f, write_ipl f objs mapping);;
         mret false)
        (λ e, report ERROR ("IPL export failed: " +:+ exn_str e);;
              mret true);
      if (failed : bool) then mret CANCELLED
      else
        report INFO ("IPL export complete: " +:+ filepath slf);;
        mret FINISHED
  end.

(** [invoke] up to the file selector: the prefill of [model_id]. *)
Definition invoke_model_id (slf : props) (context : Context) : Z :=
  if (bool_decide (model_id slf = 0) || bool_decide (model_id slf = 4542))
     && bool_decide (is_Some (gtass_model_id (scene context)))
  then default 0 (gtass_model_id (scene context))
  else model_id slf.

End ops.
End ExportAsIPL.

(** ** The order of first occurrences

    [first_seen key l] keeps, of the elements of [l] that share a key, the
    first one. *)
Fixpoint first_seen {A} (key : A → string) (l : list A) : list A :=
  match l with
  | [] => []
  | a :: l' => a :: filter (λ b, key b ≠ key a) (first_seen key l')
  end.

Definition first_occurrences (names : list string) : list string :=
  first_seen id names.

(** The run [start, start + 1, ..., start + n - 1]. *)
Definition id_run (start : Z) (n : nat) : list Z :=
  (λ i : nat, start + Z.of_nat i) <$> seq 0 n.

(** ** An exact host for examples

    Numbers are integers, a world matrix is a translation with a rotation
    quaternion, quaternions multiply by the Hamilton product, an Euler
    triple counts half turns about X, Y and Z, and a path is its text. *)
Module ExampleHost.

Definition qmul (a b : Quaternion Z) : Quaternion Z :=
  {| quat_w := quat_w a * quat_w b - quat_x a * quat_x b
               - quat_y a * quat_y b - quat_z a * quat_z b;
     quat_x := quat_w a * quat_x b + quat_x a * quat_w b
               + quat_y a * quat_z b - quat_z a * quat_y b;
     quat_y := quat_w a * quat_y b - quat_x a * quat_z b
               + quat_y a * quat_w b + quat_z a * quat_x b;
     quat_z := quat_w a * quat_z b + quat_x a * quat_y b
               - quat_y a * quat_x b + quat_z a * quat_w b |}.

Definition qscale (k : Z) (a : Quaternion Z) : Quaternion Z :=
  {| quat_w := k * quat_w a; quat_x := k * quat_x a;
     quat_y := k * quat_y a; quat_z := k * quat_z a |}.

Definition qone : Quaternion Z := mkQuaternion 1 0 0 0.

(** [k] half turns about the axis of the unit [u]. *)
Definition half_turns (k : Z) (u : Quaternion Z) : Quaternion Z :=
  match k mod 4 with
  | 0 => qone
  | 1 => u
  | 2 => qscale (-1) qone
  | _ => qscale (-1) u
  end.

Definition euler_half_turns (e : Z * Z * Z) : Quaternion Z :=
  let '(a, b, c) := e in
  qmul (half_turns c (mkQuaternion 0 0 0 1))
    (qmul (half_turns b (mkQuaternion 0 0 1 0))
       (half_turns a (mkQuaternion 0 1 0 0))).

Fixpoint split_first (c : ascii) (s : string) : option (string * string) :=
  match s with
  | "" => None
  | String a s' =>
      if bool_decide (a = c) then Some ("", s')
      else prod_map (String a) id <$> split_first c s'
  end.

(** The text after the last [c], and the text before it. *)
Definition split_last (c : ascii) (s : string) : option (string * string) :=
  (λ p, (String.rev p.2, String.rev p.1)) <$> split_first c (String.rev s).

Definition file_name (p : string) : string :=
  match split_last "/" p with Some (_, n) => n | None => p end.

Definition suffix (p : string) : string :=
  match split_last "." (file_name p) with
  | Some (stem, ext) => if bool_decide (stem = "") then "" else "." +:+ ext
  | None => ""
  end.

Definition with_suffix (p new : string) : exn + string :=
  if bool_decide (file_name p = "") then
    inl (ValueError "path has an empty name")
  else
    let old := suffix p in
    inr (String.rev
           (String.rev new +:+
            Nat.iter (String.length old)
              (λ s, match s with String _ s' => s' | "" => "" end)
              (String.rev p))).

Definition host : Host := {|
  Float := Z;
  Matrix := Vector Z * Quaternion Z;
  Path := string;
  float_neg := Z.opp;
  format_6f := λ v, pretty v +:+ ".000000";
  to_translation := fst;
  to_quaternion := snd;
  euler_xyz_to_quaternion := euler_half_turns;
  quat_matmul := qmul;
  path_of_str := id;
  path_suffix := suffix;
  path_with_suffix := with_suffix;
  path_str := id
|}.

(** A mesh object at the origin with the default IDE properties. *)
Definition mesh (name : string) (colls : list string) : @Object host :=
  {| obj_name := name; obj_type := "MESH";
     users_collection := Build_Collection <$> colls;
     ide_flags := {| ide_flag := "0"; render_distance := 299;
                     texture_name := "generic" |};
     matrix_world := (mkVector 0 0 0, qone) : @Matrix host |}.


Definition camera (name : string) : @Object host :=
  {| obj_name := name; obj_type := "CAMERA";
     users_collection := [];
     ide_flags := {| ide_flag := "0"; render_distance := 299;
                     texture_name := "generic" |};
     matrix_world := (mkVector 0 0 0, qone) : @Matrix host |}.

Definition context (objs : list (@Object host)) (sid : option Z)
    : @Context host :=
  {| selected_objects := objs; scene := {| gtass_model_id := sid |} |}.

(** A disk with the given files on which [n] writes succeed. *)
Definition disk_with (fs : gmap string string) (n : nat) : Disk :=
  {| files := fs; open_error := None; writes_ok := n;
     write_error := "No space left on device" |}.

Definition ide_state (path : string) (mid : Z) (d : Disk)
    : St ExportAsIDE.props :=
  {| self := {| ExportAsIDE.filepath := path; ExportAsIDE.model_id := mid |};
     disk := d; reports := [] |}.

Definition ipl_state (path : string) (mid : Z) (rot : option (Z * Z * Z))
    (d : Disk) : St (@ExportAsIPL.props host) :=
  {| self := {| ExportAsIPL.filepath := path; ExportAsIPL.model_id := mid;
                ExportAsIPL.apply_default_rotation :=
                  bool_decide (is_Some rot);
                ExportAsIPL.default_rotation :=
                  default (0, 0, 0) rot : @Float host * @Float host * @Float host |};
     disk := d; reports := [] |}.

End ExampleHost.

(** ** The allocation scheme of the two loops

    [unique_loop] and [mapping_loop] are the same scan with a different key
    and a different value stored at the fresh id. *)
Fixpoint alloc {A V} (key : A → string) (val : Z → A → V)
    (l : list A) (d : Dict.t V) (cur : Z) : Dict.t V :=
  match l with
  | [] => d
  | a :: l' =>
      if negb (Dict.contains (key a) d) then
        alloc key val l' (Dict.set (key a) (val cur a) d) (cur + 1)
      else alloc key val l' d cur
  end.

(** The canonical name in the IPL exporter, and the IDE entry of an object
    at a given id. *)
Definition ipl_name `{Host} (o : Object) : string :=
  str_or (base_name o) "Unnamed".

Definition ide_entry `{Host} (cur : Z) (o : Object) : ExportAsIDE.entry :=
  (cur, texture_name (ide_flags o), render_distance (ide_flags o),
   ide_flag (ide_flags o)).

(** The ids of an IDE dictionary, by name. *)
Definition ide_ids (unique : Dict.t ExportAsIDE.entry) : Dict.t Z :=
  prod_map id ExportAsIDE.entry_id <$> unique.

(** [m] gives the names of [names] the ids [start], [start + 1], ... in the
    order of their first occurrence: one entry per distinct name, and every
    occurrence of a name finds the id given at its first occurrence. *)
Definition allocates (names : list string) (start : Z) (m : Dict.t Z) : Prop :=
  Dict.keys m = first_occurrences names
  ∧ Dict.values m = id_run start (length (first_occurrences names))
  ∧ NoDup (Dict.keys m)
  ∧ (∀ k, k ∈ Dict.keys m ↔ k ∈ names)
  ∧ Forall (λ k, ∃ j : nat,
              first_occurrences names !! j = Some k
              ∧ Dict.get k m = Some (start + Z.of_nat j)) names.

(** ** The text of the exported files *)

(** The chunks written one after the other. *)
Definition joined (chunks : list string) : string := foldr String.app "" chunks.

(** The state [st] with one more report. *)
Definition add_report {Self} (st : St Self) (lvl : report_type) (msg : string)
    : St Self :=
  {| self := self st; disk := disk st; reports := reports st ++ [(lvl, msg)] |}.

(** The state [st] with other operator properties. *)
Definition with_self {Self} (st : St Self) (slf : Self) : St Self :=
  {| self := slf; disk := disk st; reports := reports st |}.

(** The state [st] once [path] holds [text] and [n] more writes succeed. *)
Definition opened {Self} (st : St Self) (path text : string) (n : nat)
    : St Self :=
  {| self := self st;
     disk := {| files := <[path := text]> (files (disk st));
                open_error := open_error (disk st);
                writes_ok := n;
                write_error := write_error (disk st) |};
     reports := reports st |}.

(** The path the IDE exporter writes to. *)
Definition ide_path (fp : string) : string :=
  if endswith (lower fp) ".ide" then fp else fp +:+ ".ide".

(** The writes of a complete IDE export, in order. *)
Definition ide_chunks `{Host} (objs : list Object) (start : Z) : list string :=
  ("objs" +:+ nl)
    :: (ExportAsIDE.ide_line
          <$> Dict.items (ExportAsIDE.unique_loop objs Dict.empty start))
    ++ ["end" +:+ nl].

(** The writes of a complete IPL export, in order. *)
Definition ipl_chunks `{Host} (slf : ExportAsIPL.props) (objs : list Object)
    (mapping : Dict.t Z) : list string :=
  ("# Exported with GTASceneSync" +:+ nl +:+ "inst" +:+ nl)
    :: ((λ obj, ExportAsIPL.inst_line (ExportAsIPL.inst_of slf mapping obj))
          <$> objs)
    ++ ["end" +:+ nl].

(** The mesh objects of the selection. *)
Definition meshes `{Host} (context : Context) : list Object :=
  filter (λ o, is_mesh o = true) (selected_objects context).

(** The state in which the IDE file is written: the path carries its
    extension. *)
Definition ide_ready (st : St ExportAsIDE.props) : St ExportAsIDE.props :=
  with_self st
    {| ExportAsIDE.filepath := ide_path (ExportAsIDE.filepath (self st));
       ExportAsIDE.model_id := ExportAsIDE.model_id (self st) |}.

(** The path the IPL exporter writes to, as [validate_filepath] computes
    it. *)
Definition ipl_path `{Host} (fp : string) : exn + string :=
  let p := path_of_str fp in
  if bool_decide (lower (path_suffix p) ≠ ".ipl") then
    match path_with_suffix p ".ipl" with
    | inl e => inl e
    | inr p' => inr (path_str p')
    end
  else inr (path_str p).

(** The state in which the IPL file is written. *)
Definition ipl_ready `{Host} (st : St ExportAsIPL.props) (path : string)
    : St ExportAsIPL.props :=
  with_self st (ExportAsIPL.set_filepath (self st) path).

(** ** Outcomes of an export *)




(** ** Property defaults

    [model_id: IntProperty(default=4542)] of both operators and
    [Scene.gtass_model_id = IntProperty(default=4542, min=0)] of
    [register]. *)
Definition model_id_default : Z := 4542.

Definition registered_scene : Scene := {| gtass_model_id := Some 4542 |}.

(** ** Objects in the scene and their mutation

    The scene owns its objects; a reference is a position in the store.
    Resolving a name reads the store, [OBJECT_OT_batch_rename] writes it. *)
Definition Store `{Host} : Type := list Object.

Definition resolve_at `{Host} (r : nat) (store : Store)
    : option string * Store :=
  (ipl_name <$> store !! r, store).

Definition rename `{Host} (o : Object) (name : string) : Object :=
  {| obj_name := name; obj_type := obj_type o;
     users_collection := users_collection o; ide_flags := ide_flags o;
     matrix_world := matrix_world o |}.

(** [for i, obj in enumerate(selected_objects, start=1):]
    [obj.name = f"{self.base_name}_{i}"], all objects selected. *)
Definition batch_rename `{Host} (base : string) (store : Store) : Store :=
  imap (λ i o, rename o (base +:+ "_" +:+ pretty (Z.of_nat i + 1))) store.

(** ** Recognisers for the suffixes the cleaners remove *)

(** [s] is a non-empty run of digits that reaches the end of the string or
    the newline that ends it. *)
Fixpoint digits_to_eol (s : string) : bool :=
  match s with
  | "" => false
  | String a s' => is_digit a && (digits_to_eol s' || Re.at_eol s')
  end.

(** Somewhere in [s] a dot is followed by digits up to the end. *)
Fixpoint ends_numeric (s : string) : bool :=
  match s with
  | "" => false
  | String a s' =>
      (bool_decide (a = "."%char) && digits_to_eol s') || ends_numeric s'
  end.

(** ** [invoke] of the two exporters

    The prefill of [model_id] from the scene, followed by
    [context.window_manager.fileselect_add(self)], which opens the file
    browser of the host and changes nothing here. *)
Definition ide_invoke `{Host} (context : Context)
    : M ExportAsIDE.props op_result :=
  slf ← get_self;
  match gtass_model_id (scene context) with
  | Some v =>
      if bool_decide (ExportAsIDE.model_id slf = 0)
         || bool_decide (ExportAsIDE.model_id slf = 4542)
      then put_self {| ExportAsIDE.filepath := ExportAsIDE.filepath slf;
                       ExportAsIDE.model_id := v |}
      else mret tt
  | None => mret tt
  end;;
  mret RUNNING_MODAL.

Definition ipl_invoke `{Host} (context : Context)
    : M ExportAsIPL.props op_result :=
  slf ← get_self;
  match gtass_model_id (scene context) with
  | Some v =>
      if bool_decide (ExportAsIPL.model_id slf = 0)
         || bool_decide (ExportAsIPL.model_id slf = 4542)
      then put_self
             {| ExportAsIPL.filepath := ExportAsIPL.filepath slf;
                ExportAsIPL.model_id := v;
                ExportAsIPL.apply_default_rotation :=
                  ExportAsIPL.apply_default_rotation slf;
                ExportAsIPL.default_rotation :=
                  ExportAsIPL.default_rotation slf |}
      else mret tt
  | None => mret tt
  end;;
  mret RUNNING_MODAL.

(** ** [BatchSetTXD]

    The operator reads [scene.batch_txd_name] and writes the texture name
    of the selected mesh objects; it returns its result, its report and the
    selection as it leaves it. *)
Module BatchSetTXD.

(** [str.isspace] on the code points below 256. *)
Definition is_space (a : ascii) : bool :=
  let n := N_of_ascii a in
  ((9 <=? n)%N && (n <=? 13)%N) || ((28 <=? n)%N && (n <=? 32)%N)
  || (n =? 133)%N || (n =? 160)%N.

Fixpoint lstrip (s : string) : string :=
  match s with
  | "" => ""
  | String a s' => if is_space a then lstrip s' else s
  end.

Definition rstrip (s : string) : string :=
  String.rev (lstrip (String.rev s)).

(** [s.strip()] *)
Definition strip (s : string) : string := rstrip (lstrip s).

(** Every character of [s] is white space. *)
Fixpoint blank (s : string) : bool :=
  match s with
  | "" => true
  | String a s' => is_space a && blank s'
  end.

Section ops.
Context `{Host}.

(** [obj.ide_flags.texture_name = txd] *)
Definition set_texture_name (obj : Object) (txd : string) : Object :=
  {| obj_name := obj_name obj; obj_type := obj_type obj;
     users_collection := users_collection obj;
     ide_flags := {| ide_flag := ide_flag (ide_flags obj);
                     render_distance := render_distance (ide_flags obj);
                     texture_name := txd |};
     matrix_world := matrix_world obj |}.

(** The loop over the selection: the objects as it leaves them, and
    [count]. *)
Fixpoint loop (txd : string) (objs : list Object) (count : Z)
    : list Object * Z :=
  match objs with
  | [] => ([], count)
  | obj :: rest =>
      if is_mesh obj then
        let '(rest', count') := loop txd rest (count + 1) in
        (set_texture_name obj txd :: rest', count')
      else
        let '(rest', count') := loop txd rest count in
        (obj :: rest', count')
  end.

Definition execute (batch_txd_name : string) (selected : list Object)
    : op_result * (report_type * string) * list Object :=
  let txd := strip batch_txd_name in
  if bool_decide (txd = "") then
    (CANCELLED, (WARNING, "TXD name is empty."), selected)
  else
    let '(objs, count) := loop txd selected 0 in
    (FINISHED,
     (INFO, "Set TXD '" +:+ txd +:+ "' for " +:+ pretty count +:+ " objects."),
     objs).

End ops.
End BatchSetTXD.

(** An operator run that ends by its own [return]: it made exactly one
    report, an [INFO] report when it finished and a warning or an error
    report when it was cancelled. *)
Definition reported_once {Self} (st : St Self)
    (r : (exn + op_result) * St Self) : Prop :=
  ∃ lvl msg,
    reports r.2 = reports st ++ [(lvl, msg)]
    ∧ r.1 = inr (match lvl with INFO => FINISHED | _ => CANCELLED end).

(** The context with only the mesh objects of the selection. *)
Definition meshes_only `{Host} (context : Context) : Context :=
  {| selected_objects := meshes context; scene := scene context |}.

(** The IDE entry [e] with another texture name. *)
Definition with_texture (txd : string) (e : ExportAsIDE.entry)
    : ExportAsIDE.entry :=
  (ExportAsIDE.entry_id e, txd, e.1.2, e.2).

(** The context with another selection. *)
Definition with_selection `{Host} (context : Context) (objs : list Object)
    : Context :=
  {| selected_objects := objs; scene := scene context |}.

(** What the loop of [BatchSetTXD] does to one object. *)
Definition retagged `{Host} (txd : string) (o : Object) : Object :=
  if is_mesh o then BatchSetTXD.set_texture_name o txd else o.

(** * Properties *)

(** ** Strings *)

Lemma str_app_cons a s t : String a s +:+ t = String a (s +:+ t).
Proof. reflexivity. Qed.

Lemma str_app_nil_l s : "" +:+ s = s.
Proof. reflexivity. Qed.

Lemma str_app_nil_r s : s +:+ "" = s.
Proof. induction s as [|a s IH]; [done |]. by rewrite str_app_cons, IH. Qed.

Lemma str_app_assoc s t u : (s +:+ t) +:+ u = s +:+ (t +:+ u).
Proof. induction s as [|a s IH]; [done |]. by rewrite !str_app_cons, IH. Qed.

Lemma str_app_length s t :
  String.length (s +:+ t) = (String.length s + String.length t)%nat.
Proof.
  induction s as [|a s IH]; [done |]. rewrite str_app_cons. cbn. by rewrite IH.
Qed.





(** ** The name cleaners on examples *)

Example clean_name_wall : clean_name "Wall.003" = "Wall".
Proof. reflexivity. Qed.

Example clean_name_inner_suffix : clean_name "a.1.2" = "a.1".
Proof. reflexivity. Qed.

Example clean_name_not_at_end : clean_name "Wall.003x" = "Wall.003x".
Proof. reflexivity. Qed.

Example clean_name_only_suffix : clean_name ".001" = "".
Proof. reflexivity. Qed.

Example clean_name_before_newline :
  clean_name ("Wall.003" +:+ nl) = "Wall" +:+ nl.
Proof. reflexivity. Qed.

Example clean_collection_name_mixed_case :
  clean_collection_name "House.DfF" = "House".
Proof. reflexivity. Qed.

Example clean_collection_name_not_at_end :
  clean_collection_name "House.dffx" = "House.dffx".
Proof. reflexivity. Qed.

Example clean_collection_name_keeps_digits :
  clean_collection_name "Wall.003" = "Wall.003".
Proof. reflexivity. Qed.

(** Stripping is not idempotent on strings: each call removes one suffix. *)
Remark clean_name_strips_one_suffix :
  clean_name (clean_name "a.1.2") ≠ clean_name "a.1.2".
Proof. vm_compute. discriminate. Qed.

(** ** Letter case *)

Lemma ascii_lower_dot a : ascii_lower a = "."%char → a = "."%char.
Proof.
  destruct a as [[] [] [] [] [] [] [] []]; vm_compute; intros E;
    first [reflexivity | discriminate E].
Qed.

Lemma ascii_lower_d a :
  ascii_lower a = "d"%char → a = "d"%char ∨ a = "D"%char.
Proof.
  destruct a as [[] [] [] [] [] [] [] []]; vm_compute; intros E;
    first [by left | by right | discriminate E].
Qed.

Lemma ascii_lower_f a :
  ascii_lower a = "f"%char → a = "f"%char ∨ a = "F"%char.
Proof.
  destruct a as [[] [] [] [] [] [] [] []]; vm_compute; intros E;
    first [by left | by right | discriminate E].
Qed.

(** The spellings of [.dff] in any letter case. *)
Lemma lower_dff sfx :
  lower sfx = ".dff" →
  sfx ∈ [".dff"; ".dfF"; ".dFf"; ".dFF"; ".Dff"; ".DfF"; ".DFf"; ".DFF"].
Proof.
  destruct sfx as [|a [|b [|c [|d [|? ?]]]]]; try discriminate.
  cbn [lower]. intros E. injection E as Ea Eb Ec Ed.
  apply ascii_lower_dot in Ea as ->.
  apply ascii_lower_d in Eb as [-> | ->];
    apply ascii_lower_f in Ec as [-> | ->];
    apply ascii_lower_f in Ed as [-> | ->];
    repeat first [apply list_elem_of_here | apply list_elem_of_further].
Qed.

(** ** The cleaners in general *)

Lemma at_eol_spec t : Re.at_eol t = true → t = "" ∨ t = nl.
Proof.
  destruct t as [|a [|b t]]; cbn; [by left | | discriminate].
  intros E%bool_decide_eq_true. subst. by right.
Qed.

Lemma lower_length s : String.length (lower s) = String.length s.
Proof. induction s as [|a s IH]; [done |]. cbn. by rewrite IH. Qed.

(** Both patterns start with a literal dot. *)
Lemma match_here_dot ic p s n :
  Re.match_here ic (Re.One (Re.Chr ".") :: p) s = Some n →
  ∃ s', s = String "." s'.
Proof.
  destruct s as [|a s']; [done |]. cbn.
  destruct ic; case_bool_decide as E; try discriminate; intros _.
  - apply ascii_lower_dot in E. subst. eauto.
  - subst. eauto.
Qed.

(** A name without a dot is left as it is. *)
Lemma sub_go_no_dot ic p repl s :
  occurs "." s = false →
  Re.sub_go ic (Re.One (Re.Chr ".") :: p) repl 0 s = s.
Proof.
  induction s as [|a s IH]; intros Hs.
  - done.
  - cbn [occurs] in Hs. apply orb_false_iff in Hs as [Ha Hs].
    apply bool_decide_eq_false in Ha.
    cbn [Re.sub_go].
    destruct (Re.match_here _ _ _) as [n|] eqn:E.
    + apply match_here_dot in E as [s' E]. by simplify_eq.
    + by rewrite IH.
Qed.

Lemma clean_without_dot name :
  occurs "." name = false →
  clean_name name = name ∧ clean_collection_name name = name.
Proof.
  intros Hn. split; by apply sub_go_no_dot.
Qed.

(** *** [clean_collection_name] *)

Lemma match_dff_shape s n :
  Re.match_here true dff_pattern s = Some n →
  ∃ c1 c2 c3 c4 t,
    s = String c1 (String c2 (String c3 (String c4 t)))
    ∧ Re.at_eol t = true.
Proof.
  destruct s as [|c1 [|c2 [|c3 [|c4 t]]]]; cbn;
    repeat (case_bool_decide; try discriminate);
    try discriminate.
  destruct (Re.at_eol t) eqn:E; [| discriminate]. intros _.
  by exists c1, c2, c3, c4, t.
Qed.

Lemma no_dff_match_before_suffix a b sfx :
  lower sfx = ".dff" →
  Re.match_here true dff_pattern (String a (b +:+ sfx)) = None.
Proof.
  intros Hs.
  destruct (Re.match_here _ _ _) as [n|] eqn:E; [| done]. exfalso.
  apply match_dff_shape in E as (c1 & c2 & c3 & c4 & t & Es & Ht).
  pose proof (f_equal String.length Es) as Hlen.
  cbn [String.length] in Hlen. rewrite str_app_length in Hlen.
  pose proof (lower_length sfx) as Hl. rewrite Hs in Hl. cbn in Hl.
  apply at_eol_spec in Ht as [-> | ->]; cbn in Hlen; [lia |].
  destruct b as [|x b]; [| cbn in Hlen; lia].
  rewrite str_app_nil_l in Es.
  destruct sfx as [|x1 [|x2 [|x3 [|x4 [|? ?]]]]]; try discriminate.
  unfold nl in Es. injection Es as _ _ _ _ ->.
  cbn [lower] in Hs. injection Hs as _ _ _ Hf. by vm_compute in Hf.
Qed.

(** A collection name that ends in [.dff], in any letter case, loses
    exactly that suffix. *)
Lemma clean_collection_name_strips b sfx :
  lower sfx = ".dff" → clean_collection_name (b +:+ sfx) = b.
Proof.
  intros Hs. unfold clean_collection_name, Re.re_sub.
  induction b as [|a b IH].
  - apply lower_dff in Hs.
    repeat (apply elem_of_cons in Hs as [-> | Hs]; [reflexivity |]).
    by apply elem_of_nil in Hs.
  - rewrite str_app_cons. cbn [Re.sub_go].
    rewrite no_dff_match_before_suffix by done. by rewrite IH.
Qed.

(** *** [clean_name] *)

(** What [\d+$] matches: a non-empty run of digits up to the end. *)
Lemma match_plus_digits_shape s n :
  Re.match_plus is_digit eol_only s = Some n →
  ∃ ds t, s = ds +:+ t ∧ digits ds = true ∧ ds ≠ "" ∧ Re.at_eol t = true
          ∧ n = String.length ds.
Proof.
  revert n. induction s as [|a s IH]; intros n; [done |].
  cbn [Re.match_plus]. destruct (is_digit a) eqn:Ha; [| done].
  destruct (Re.match_plus is_digit eol_only s) as [m|] eqn:E.
  - intros [= <-]. destruct (IH m eq_refl) as (ds & t & -> & Hd & _ & Ht & ->).
    exists (String a ds), t. cbn. by rewrite Ha, Hd.
  - unfold eol_only. destruct (Re.at_eol s) eqn:Ht; [| done].
    intros [= <-]. exists (String a ""), s. cbn. by rewrite Ha.
Qed.

Lemma match_plus_digits_all ds :
  digits ds = true → ds ≠ "" →
  Re.match_plus is_digit eol_only ds = Some (String.length ds).
Proof.
  induction ds as [|a ds IH]; [done |]. intros Hd _.
  cbn [digits] in Hd. apply andb_true_iff in Hd as [Ha Hd].
  cbn [Re.match_plus]. rewrite Ha.
  destruct ds as [|b ds]; [done |].
  by rewrite IH.
Qed.

(** A run of digits cannot reach over a dot. *)
Lemma digits_before_dot ds t b rest :
  digits ds = true → ds +:+ t = b +:+ String "." rest →
  (String.length ds ≤ String.length b)%nat.
Proof.
  revert ds. induction b as [|x b IH]; intros ds Hd E.
  - destruct ds as [|c ds]; [done |].
    rewrite str_app_cons, str_app_nil_l in E. injection E as -> _.
    by vm_compute in Hd.
  - destruct ds as [|c ds]; [cbn; lia |].
    rewrite !str_app_cons in E. injection E as _ E.
    cbn [digits] in Hd. apply andb_true_iff in Hd as [_ Hd].
    cbn. apply le_n_S. by apply IH.
Qed.

Lemma no_digits_match_before_suffix a b ds :
  digits ds = true → ds ≠ "" →
  Re.match_here false digits_pattern (String a (b +:+ String "." ds)) = None.
Proof.
  intros Hd Hne.
  destruct (Re.match_here _ _ _) as [n|] eqn:E; [| done]. exfalso.
  cbn in E. case_bool_decide; [| done].
  change (Re.match_plus is_digit
            (λ s, if Re.at_eol s then Some 0%nat else None))
    with (Re.match_plus is_digit eol_only) in E.
  destruct (Re.match_plus _ _ _) as [m|] eqn:Em; [| done].
  apply match_plus_digits_shape in Em as (ds' & t & Es & Hd' & _ & Ht & _).
  symmetry in Es.
  pose proof (digits_before_dot _ _ _ _ Hd' Es) as Hle.
  apply (f_equal String.length) in Es. rewrite !str_app_length in Es.
  cbn [String.length] in Es.
  assert (0 < String.length ds)%nat by (destruct ds; [done | cbn; lia]).
  apply at_eol_spec in Ht as [-> | ->]; cbn in Es; lia.
Qed.

Lemma sub_go_skip_all p s :
  Re.match_here false p "" = None →
  Re.sub_go false p "" (String.length s) s = "".
Proof.
  intros Hp. induction s as [|a s IH]; cbn; [by rewrite Hp | done].
Qed.

(** An object name that ends in a dot and digits loses exactly that
    suffix. *)
Lemma clean_name_strips b ds :
  digits ds = true → ds ≠ "" → clean_name (b +:+ String "." ds) = b.
Proof.
  intros Hd Hne. unfold clean_name, Re.re_sub.
  induction b as [|a b IH].
  - rewrite str_app_nil_l. cbn [Re.sub_go].
    assert (Re.match_here false digits_pattern (String "." ds)
            = Some (S (String.length ds))) as ->.
    { cbn.
      change (Re.match_plus is_digit
                (λ s, if Re.at_eol s then Some 0%nat else None))
        with (Re.match_plus is_digit eol_only).
      by rewrite match_plus_digits_all. }
    rewrite str_app_nil_l. by apply sub_go_skip_all.
  - rewrite str_app_cons. cbn [Re.sub_go].
    rewrite no_digits_match_before_suffix by done. by rewrite IH.
Qed.

Section resolver_examples.
Context `{Host}.

(** C8: an object named "Wall.003" in no collection resolves to "Wall", and
    an object whose first collection is named "House" followed by [.dff] in
    any letter case resolves to "House"; this holds for the name the IDE
    exporter uses and for the one the IPL exporter uses. *)
Theorem resolver_wall_and_house :
  (∀ o : Object,
     obj_name o = "Wall.003" → users_collection o = [] →
     base_name o = "Wall" ∧ str_or (base_name o) "Unnamed" = "Wall")
  ∧ (∀ (o : Object) c rest sfx,
       users_collection o = c :: rest →
       coll_name c = "House" +:+ sfx → lower sfx = ".dff" →
       base_name o = "House" ∧ str_or (base_name o) "Unnamed" = "House").
Proof.
  split.
  - intros o Hn Hc. unfold base_name. rewrite Hc, Hn. cbn [head].
    change "Wall.003" with ("Wall" +:+ String "." "003").
    by rewrite clean_name_strips.
  - intros o c rest sfx Hc Hn Hs. unfold base_name. rewrite Hc. cbn [head].
    by rewrite Hn, clean_collection_name_strips.
Qed.

End resolver_examples.

(** The collection name wins even when nothing is stripped from it. *)
Lemma resolver_wall_and_house_witness :
  (base_name (ExampleHost.mesh "Wall.003" []) = "Wall"
   ∧ str_or (base_name (ExampleHost.mesh "Wall.003" [])) "Unnamed" = "Wall")
  ∧ (base_name (ExampleHost.mesh "Cube.001" ["House.DfF"; "Props"]) = "House"
     ∧ str_or (base_name (ExampleHost.mesh "Cube.001" ["House.DfF"; "Props"]))
         "Unnamed" = "House").
Proof.
  split.
  - apply (proj1 (@resolver_wall_and_house ExampleHost.host)
             (ExampleHost.mesh "Wall.003" [])); reflexivity.
  - apply (proj2 (@resolver_wall_and_house ExampleHost.host)
             (ExampleHost.mesh "Cube.001" ["House.DfF"; "Props"])
             (Build_Collection "House.DfF") [Build_Collection "Props"] ".DfF");
      reflexivity.
Defined.

(** ** Dictionaries *)

Section dict_facts.
Context {V : Type}.
Implicit Types (d : Dict.t V) (k : string) (v : V).

Lemma dict_get_None k d : Dict.get k d = None ↔ k ∉ Dict.keys d.
Proof.
  unfold Dict.keys. induction d as [|[k' v'] d IH]; cbn.
  - split; [intros _; apply not_elem_of_nil | done].
  - case_bool_decide as E.
    + subst k'. split; [done | intros []; apply list_elem_of_here].
    + rewrite IH, not_elem_of_cons. intuition congruence.
Qed.

Lemma dict_contains_true k d : Dict.contains k d = true ↔ k ∈ Dict.keys d.
Proof.
  unfold Dict.contains. rewrite bool_decide_eq_true.
  destruct (Dict.get k d) as [v|] eqn:E.
  - split; [intros _ | by eauto].
    destruct (decide (k ∈ Dict.keys d)) as [|Hn]; [done |].
    apply dict_get_None in Hn. congruence.
  - apply dict_get_None in E. split; [by intros [? ?] | done].
Qed.

Lemma dict_contains_false k d : Dict.contains k d = false ↔ k ∉ Dict.keys d.
Proof.
  rewrite <- dict_contains_true. destruct (Dict.contains k d); naive_solver.
Qed.

Lemma dict_set_fresh k v d : k ∉ Dict.keys d → Dict.set k v d = d ++ [(k, v)].
Proof.
  unfold Dict.keys. induction d as [|[k' v'] d IH]; cbn; [done |].
  rewrite not_elem_of_cons. intros [Hne Hd].
  rewrite bool_decide_eq_false_2 by done. by rewrite IH.
Qed.

Lemma dict_keys_app d1 d2 : Dict.keys (d1 ++ d2) = Dict.keys d1 ++ Dict.keys d2.
Proof. unfold Dict.keys. apply fmap_app. Qed.

(** With unique keys, the entry at any position is the one [get] finds. *)
Lemma dict_get_lookup d i k v :
  NoDup (Dict.keys d) → d !! i = Some (k, v) → Dict.get k d = Some v.
Proof.
  unfold Dict.keys. revert i. induction d as [|[k' v'] d IH]; intros i Hnd Hi.
  - done.
  - apply NoDup_cons in Hnd as [Hk' Hnd]. destruct i as [|i]; cbn in *.
    + injection Hi as -> ->. by rewrite bool_decide_eq_true_2.
    + case_bool_decide as E; [| by eapply IH].
      subst k'. exfalso. apply Hk'.
      apply list_elem_of_fmap. exists (k, v). split; [done |].
      by eapply list_elem_of_lookup_2.
Qed.

End dict_facts.

Lemma dict_get_fmap {V W} (g : V → W) k (d : Dict.t V) :
  Dict.get k (prod_map id g <$> d) = g <$> Dict.get k d.
Proof.
  induction d as [|[k' v'] d IH]; cbn; [done |]. by case_bool_decide.
Qed.

(** ** First occurrences *)

Section first_seen_facts.
Context {A : Type} (key : A → string).
Implicit Types (l : list A).

Lemma first_seen_fmap l : key <$> first_seen key l = first_occurrences (key <$> l).
Proof.
  unfold first_occurrences. induction l as [|a l IH]; cbn; [done |].
  f_equal. rewrite <- IH. clear IH.
  induction (first_seen key l) as [|b t IHt]; [done |].
  rewrite filter_cons. cbn [fmap list_fmap]. rewrite filter_cons. cbn.
  destruct (decide (key b ≠ key a)); cbn; by rewrite IHt.
Qed.

(** Filtering by a property of the key commutes with [first_seen]. *)
Lemma first_seen_filter (P : string → Prop) `{!∀ k, Decision (P k)} l :
  filter (λ a, P (key a)) (first_seen key l)
  = first_seen key (filter (λ a, P (key a)) l).
Proof.
  induction l as [|a l IH]; [done |]. cbn [first_seen].
  rewrite !filter_cons. destruct (decide (P (key a))) as [Hp|Hp].
  - cbn [first_seen]. f_equal. rewrite <- IH.
    rewrite !list_filter_filter. apply list_filter_iff. intros b. tauto.
  - rewrite <- IH. rewrite list_filter_filter. apply list_filter_iff.
    intros b. split; [tauto |]. intros Hb. split; [done |].
    intros E. apply Hp. by rewrite <- E.
Qed.

Lemma elem_of_first_seen_keys l k :
  k ∈ key <$> first_seen key l ↔ k ∈ key <$> l.
Proof.
  induction l as [|a l IH]; [done |]. cbn [first_seen fmap list_fmap].
  rewrite !elem_of_cons, <- IH. rewrite !list_elem_of_fmap.
  split.
  - intros [->|(b & -> & Hb)]; [by left |].
    apply list_elem_of_filter in Hb as [_ Hb]. right. eauto.
  - intros [->|(b & -> & Hb)]; [by left |].
    destruct (decide (key b = key a)) as [E|E]; [by left |].
    right. exists b. split; [done |]. by apply list_elem_of_filter.
Qed.

Lemma first_seen_NoDup l : NoDup (key <$> first_seen key l).
Proof.
  induction l as [|a l IH]; [apply NoDup_nil_2 |].
  cbn [first_seen fmap list_fmap]. apply NoDup_cons. split.
  - intros (b & E & Hb)%list_elem_of_fmap.
    apply list_elem_of_filter in Hb as [Hne _]. by apply Hne.
  - revert IH. generalize (first_seen key l). intros t.
    induction t as [|b t IHt]; [done |].
    cbn [fmap list_fmap]. intros [Hb Ht]%NoDup_cons. rewrite filter_cons.
    destruct (decide (key b ≠ key a)); [| by apply IHt].
    cbn [fmap list_fmap]. apply NoDup_cons. split; [| by apply IHt].
    intros (c & E & Hc)%list_elem_of_fmap.
    apply list_elem_of_filter in Hc as [_ Hc].
    apply Hb, list_elem_of_fmap. eauto.
Qed.

End first_seen_facts.

(** ** The allocation scan *)

Section alloc_facts.
Context {A V : Type} (key : A → string) (val : Z → A → V).
Implicit Types (l : list A) (d : Dict.t V) (cur : Z).

(** The scan appends, for each key not yet in the dictionary, the first
    element carrying it, at the next id. *)
Lemma alloc_spec l d cur :
  alloc key val l d cur
  = d ++ imap (λ i a, (key a, val (cur + Z.of_nat i) a))
          (first_seen key (filter (λ a, key a ∉ Dict.keys d) l)).
Proof.
  revert d cur. induction l as [|a l IH]; intros d cur.
  - cbn. by rewrite app_nil_r.
  - cbn [alloc]. rewrite filter_cons.
    destruct (Dict.contains (key a) d) eqn:E; cbn [negb].
    + apply dict_contains_true in E.
      rewrite decide_False by (intros Hn; by apply Hn). apply IH.
    + apply dict_contains_false in E. rewrite decide_True by done.
      rewrite IH, (dict_set_fresh _ _ _ E). cbn [first_seen].
      rewrite imap_cons, <- app_assoc. cbn [app]. f_equal.
      rewrite Z.add_0_r. f_equal.
      pose proof (first_seen_filter key (λ k, k ≠ key a)
                    (filter (λ b, key b ∉ Dict.keys d) l)) as Hc.
      cbn beta in Hc. rewrite Hc. clear Hc.
      rewrite list_filter_filter.
      rewrite (list_filter_iff _ (λ b, key b ≠ key a ∧ key b ∉ Dict.keys d)).
      * apply imap_ext. intros i b _. cbn. do 2 f_equal. lia.
      * intros b. rewrite dict_keys_app, not_elem_of_app. cbn.
        rewrite list_elem_of_singleton. tauto.
Qed.

Lemma alloc_empty l cur :
  alloc key val l Dict.empty cur
  = imap (λ i a, (key a, val (cur + Z.of_nat i) a)) (first_seen key l).
Proof.
  rewrite alloc_spec. cbn [app Dict.empty]. do 2 f_equal.
  induction l as [|a l IH]; [done |].
  rewrite filter_cons_True by apply not_elem_of_nil. by f_equal.
Qed.

Lemma alloc_keys l cur :
  Dict.keys (alloc key val l Dict.empty cur)
  = first_occurrences (key <$> l).
Proof.
  rewrite alloc_empty, <- first_seen_fmap. unfold Dict.keys.
  rewrite fmap_imap. unfold compose. cbn. apply imap_const.
Qed.

(** An element of the input finds, under its key, the id of the first
    element with that key: the start id plus the rank of the key among the
    first occurrences. *)
Lemma alloc_get l cur a :
  a ∈ l →
  ∃ (j : nat) (b : A),
    first_seen key l !! j = Some b ∧ key b = key a
    ∧ first_occurrences (key <$> l) !! j = Some (key a)
    ∧ Dict.get (key a) (alloc key val l Dict.empty cur)
      = Some (val (cur + Z.of_nat j) b).
Proof.
  intros Ha.
  assert (key a ∈ key <$> first_seen key l) as Hk.
  { apply elem_of_first_seen_keys, list_elem_of_fmap. eauto. }
  apply list_elem_of_fmap in Hk as (b & Hb & Hin).
  apply list_elem_of_lookup in Hin as [j Hj].
  exists j, b. split; [done |]. split; [done |]. split.
  - rewrite <- first_seen_fmap, list_lookup_fmap, Hj. cbn. by rewrite Hb.
  - apply (dict_get_lookup _ j).
    + rewrite alloc_keys, <- first_seen_fmap. apply first_seen_NoDup.
    + rewrite alloc_empty, list_lookup_imap, Hj. cbn. by rewrite Hb.
Qed.

End alloc_facts.

Lemma id_run_length start n : length (id_run start n) = n.
Proof. unfold id_run. by rewrite length_fmap, length_seq. Qed.

Lemma id_run_lookup start n i :
  (i < n)%nat → id_run start n !! i = Some (start + Z.of_nat i).
Proof.
  intros Hi. unfold id_run. rewrite list_lookup_fmap, lookup_seq_lt by done.
  done.
Qed.

(** The run is strictly increasing by steps of one. *)
Lemma id_run_consecutive start n i x y :
  id_run start n !! i = Some x → id_run start n !! S i = Some y → y = x + 1.
Proof.
  intros Hx Hy.
  assert (S i < n)%nat as Hi.
  { apply lookup_lt_Some in Hy. by rewrite id_run_length in Hy. }
  rewrite id_run_lookup in Hx by lia. rewrite id_run_lookup in Hy by lia.
  simplify_eq. lia.
Qed.

Lemma imap_ids {A} (f : A → string) (start : Z) (l : list A) :
  (imap (λ i a, (f a, start + Z.of_nat i)) l).*2 = id_run start (length l).
Proof.
  unfold id_run. rewrite fmap_imap. unfold compose. cbn.
  apply (imap_seq_0 l (λ i : nat, start + Z.of_nat i)).
Qed.

Section exporters_alloc.
Context `{Host}.
Implicit Types (objs : list Object) (cur : Z).

Lemma unique_loop_alloc objs unique cur :
  ExportAsIDE.unique_loop objs unique cur
  = alloc base_name ide_entry objs unique cur.
Proof.
  revert unique cur. induction objs as [|o objs IH]; intros unique cur.
  - done.
  - cbn [ExportAsIDE.unique_loop alloc]. by rewrite !IH.
Qed.

Lemma mapping_loop_alloc objs mapping cur :
  ExportAsIPL.mapping_loop objs mapping cur
  = alloc ipl_name (λ cur _, cur) objs mapping cur.
Proof.
  revert mapping cur. induction objs as [|o objs IH]; intros mapping cur.
  - done.
  - cbn [ExportAsIPL.mapping_loop alloc]. by rewrite !IH.
Qed.

(** The ids of the IDE dictionary come from the same scan, keyed by
    [base_name]. *)
Lemma ide_ids_alloc objs cur :
  ide_ids (ExportAsIDE.unique_loop objs Dict.empty cur)
  = alloc base_name (λ cur _, cur) objs Dict.empty cur.
Proof.
  rewrite unique_loop_alloc, !alloc_empty. unfold ide_ids.
  rewrite fmap_imap. by apply imap_ext.
Qed.

Lemma ide_ids_get k (unique : Dict.t ExportAsIDE.entry) :
  Dict.get k (ide_ids unique) = ExportAsIDE.entry_id <$> Dict.get k unique.
Proof. apply dict_get_fmap. Qed.

(** The IDE record of a name carries the texture, draw distance and flag of
    the first object with that name. *)
Lemma ide_record_of_first_object objs cur (o : Object) :
  o ∈ objs →
  ∃ (j : nat) (b : Object),
    first_seen base_name objs !! j = Some b
    ∧ base_name b = base_name o
    ∧ Dict.get (base_name o) (ExportAsIDE.unique_loop objs Dict.empty cur)
      = Some (ide_entry (cur + Z.of_nat j) b).
Proof.
  intros Ho. rewrite unique_loop_alloc.
  destruct (alloc_get base_name ide_entry objs cur o Ho)
    as (j & b & Hj & Hb & _ & Hget).
  eauto.
Qed.

End exporters_alloc.

Lemma alloc_allocates {A} (key : A → string) (l : list A) (start : Z) :
  allocates (key <$> l) start (alloc key (λ cur _, cur) l Dict.empty start).
Proof.
  unfold allocates. rewrite alloc_keys.
  split; [done |]. split; [| split; [| split]].
  - unfold Dict.values. rewrite alloc_empty, imap_ids.
    by rewrite <- first_seen_fmap, !length_fmap.
  - rewrite <- first_seen_fmap. apply first_seen_NoDup.
  - intros k. rewrite <- first_seen_fmap. apply elem_of_first_seen_keys.
  - apply Forall_fmap, Forall_forall. intros a Ha. cbn.
    destruct (alloc_get key (λ cur _, cur) l start a Ha)
      as (j & b & _ & _ & Hj & Hget).
    eauto.
Qed.

Section id_allocation.
Context `{Host}.

(** C1: both exporters give the canonical names of the objects a run of
    consecutive ids that starts at the start id: the keys of the dictionary
    are the distinct names in the order of their first occurrence, the ids
    are [start], [start + 1], ... without gap, and each occurrence of a name
    looks up the id given at its first occurrence. *)
Theorem ids_are_consecutive_in_first_seen_order
    (objs : list Object) (start : Z) :
  allocates (ipl_name <$> objs) start
    (ExportAsIPL.mapping_loop objs Dict.empty start)
  ∧ allocates (base_name <$> objs) start
      (ide_ids (ExportAsIDE.unique_loop objs Dict.empty start)).
Proof.
  split.
  - rewrite mapping_loop_alloc. apply alloc_allocates.
  - rewrite ide_ids_alloc. apply alloc_allocates.
Qed.

End id_allocation.

Example allocation_example :
  ExportAsIPL.mapping_loop
    [ExampleHost.mesh "Wall.003" []; ExampleHost.mesh "a" ["Tree1.dff"];
     ExampleHost.mesh "Wall.001" []; ExampleHost.mesh "b" ["Tree1.DFF"];
     ExampleHost.mesh "Gate" []] Dict.empty 100
  = [("Wall", 100); ("Tree1", 101); ("Gate", 102)].
Proof. reflexivity. Qed.

(** ** Running the file operations *)

Section file_facts.
Context {Self : Type}.
Implicit Types (st : St Self) (f path : string).

Lemma for_each_app {A} (l1 l2 : list A) (body : A → M Self unit) st :
  for_each (l1 ++ l2) body st = (for_each l1 body;; for_each l2 body) st.
Proof.
  revert st. induction l1 as [|x l1 IH]; intros st; cbn.
  - done.
  - unfold mbind, M_bind. destruct (body x st) as [[e|[]] st']; [done |].
    apply IH.
Qed.

Lemma for_each_fmap {A B} (g : A → B) (l : list A) (body : B → M Self unit) st :
  for_each (g <$> l) body st = for_each l (λ a, body (g a)) st.
Proof.
  revert st. induction l as [|x l IH]; intros st; cbn; [done |].
  unfold mbind, M_bind. destruct (body (g x) st) as [[e|[]] st']; [done |].
  apply IH.
Qed.

Lemma fopen_run path st :
  fopen path st =
  match open_error (disk st) with
  | Some msg => (inl (OSError msg), st)
  | None => (inr path, opened st path "" (writes_ok (disk st)))
  end.
Proof. reflexivity. Qed.

Lemma fwrite_opened path s st text n :
  fwrite path s (opened st path text n) =
  match n with
  | O => (inl (OSError (write_error (disk st))), opened st path text 0)
  | S n' => (inr tt, opened st path (text +:+ s) n')
  end.
Proof.
  destruct n as [|n']; [done |]. unfold fwrite, opened. cbn.
  by rewrite alter_insert_eq.
Qed.

Lemma fwrite_self f s st r st' : fwrite f s st = (r, st') → self st' = self st.
Proof.
  unfold fwrite. destruct (writes_ok (disk st)); intros E; by simplify_eq.
Qed.

(** Writing a list of chunks to the open file: all of them when enough
    writes succeed, otherwise the initial segment up to the failing write. *)
Lemma write_all_opened path chunks st text n :
  for_each chunks (fwrite path) (opened st path text n) =
  if decide (length chunks ≤ n)%nat then
    (inr tt, opened st path (text +:+ joined chunks) (n - length chunks))
  else
    (inl (OSError (write_error (disk st))),
     opened st path (text +:+ joined (take n chunks)) 0).
Proof.
  revert text n. induction chunks as [|c chunks IH]; intros text n.
  - cbn. rewrite decide_True by lia. by rewrite str_app_nil_r, Nat.sub_0_r.
  - cbn [for_each]. unfold mbind, M_bind. rewrite fwrite_opened.
    destruct n as [|n].
    + rewrite decide_False by (cbn; lia). cbn. by rewrite str_app_nil_r.
    + rewrite IH. cbn [length take joined foldr].
      destruct (decide (length chunks ≤ n)%nat).
      * rewrite decide_True by lia. by rewrite str_app_assoc.
      * rewrite decide_False by lia. by rewrite str_app_assoc.
Qed.

Lemma with_open_write_all path chunks st :
  with_open path (λ f, for_each chunks (fwrite f)) st =
  match open_error (disk st) with
  | Some msg => (inl (OSError msg), st)
  | None =>
      let n := writes_ok (disk st) in
      if decide (length chunks ≤ n)%nat then
        (inr tt, opened st path (joined chunks) (n - length chunks))
      else
        (inl (OSError (write_error (disk st))),
         opened st path (joined (take n chunks)) 0)
  end.
Proof.
  unfold with_open, mbind, M_bind. rewrite fopen_run.
  destruct (open_error (disk st)); [done |].
  by rewrite write_all_opened.
Qed.

End file_facts.

Lemma bind_run {Self A B} (m : M Self A) (k : A → M Self B) st :
  (m ≫= k) st =
  match m st with
  | (inr a, st') => k a st'
  | (inl e, st') => (inl e, st')
  end.
Proof. reflexivity. Qed.

Lemma fopen_self {Self} path (st : St Self) r st' :
  fopen path st = (r, st') → self st' = self st.
Proof.
  unfold fopen. destruct (open_error (disk st)); intros E; by simplify_eq.
Qed.

(** Two bodies that agree on the states with the properties of [st] run
    alike inside [with]. *)
Lemma with_open_ext {Self A} path (body1 body2 : string → M Self A) st :
  (∀ f st', self st' = self st → body1 f st' = body2 f st') →
  with_open path body1 st = with_open path body2 st.
Proof.
  intros E. unfold with_open. rewrite !bind_run.
  destruct (fopen path st) as [[e|f] st'] eqn:Ho; [done |].
  apply E. by eapply fopen_self.
Qed.

Lemma for_each_singleton {Self A} (x : A) (body : A → M Self unit) st :
  for_each [x] body st = body x st.
Proof.
  cbn. unfold mbind, M_bind. by destruct (body x st) as [[e|[]] st'].
Qed.

(** ** Running [ExportAsIDE.execute] *)

Section ide_run.
Context `{Host}.
Implicit Types (st : St ExportAsIDE.props) (context : Context).

Lemma write_ide_chunks f objs start st :
  ExportAsIDE.write_ide f objs start st
  = for_each (ide_chunks objs start) (fwrite f) st.
Proof.
  unfold ExportAsIDE.write_ide, ide_chunks. cbn [for_each].
  unfold mbind at 1 3, M_bind.
  destruct (fwrite f ("objs" +:+ nl) st) as [[e|[]] st1]; [done |].
  rewrite for_each_app. unfold mbind, M_bind. rewrite for_each_fmap.
  destruct (for_each _ _ st1) as [[e|[]] st2]; [done |].
  by rewrite for_each_singleton.
Qed.

(** Every run of the IDE exporter, case by case. *)
Lemma ide_execute_run context st :
  let path := ide_path (ExportAsIDE.filepath (self st)) in
  let chunks :=
    ide_chunks (meshes context) (ExportAsIDE.start_id (self st) context) in
  let n := writes_ok (disk st) in
  ExportAsIDE.execute context st =
  match meshes context with
  | [] => (inr CANCELLED, add_report st WARNING "No mesh objects selected.")
  | _ :: _ =>
      match open_error (disk st) with
      | Some msg =>
          (inr CANCELLED,
           add_report (ide_ready st) ERROR ("IDE export failed: " +:+ msg))
      | None =>
          if decide (length chunks ≤ n)%nat then
            (inr FINISHED,
             add_report
               (opened (ide_ready st) path (joined chunks) (n - length chunks))
               INFO ("IDE export complete: " +:+ path))
          else
            (inr CANCELLED,
             add_report
               (opened (ide_ready st) path (joined (take n chunks)) 0)
               ERROR ("IDE export failed: " +:+ write_error (disk st)))
      end
  end.
Proof.
  intros path chunks n. unfold ExportAsIDE.execute. fold (meshes context).
  destruct (meshes context) as [|o objs] eqn:Hm; [done |].
  assert (∀ b : bool,
    (if b
     then put_self {| ExportAsIDE.filepath :=
                        ExportAsIDE.filepath (self st) +:+ ".ide";
                      ExportAsIDE.model_id := ExportAsIDE.model_id (self st) |}
     else mret tt) st
    = (inr tt,
       with_self st
         {| ExportAsIDE.filepath :=
              if b then ExportAsIDE.filepath (self st) +:+ ".ide"
              else ExportAsIDE.filepath (self st);
            ExportAsIDE.model_id := ExportAsIDE.model_id (self st) |}))
    as Hput.
  { intros []; [done |]. destruct st as [[fp mid] d r]. done. }
  unfold mbind at 1, M_bind at 1. cbn [get_self].
  unfold mbind at 1, M_bind at 1. rewrite Hput. clear Hput.
  replace (with_self st _) with (ide_ready st).
  2:{ unfold ide_ready, ide_path.
      by destruct (endswith (lower (ExportAsIDE.filepath (self st))) ".ide"). }
  unfold mbind at 1, M_bind at 1. cbn [get_self ide_ready with_self self].
  fold (ide_ready st). fold path.
  unfold mbind at 1, M_bind at 1. unfold try_except.
  unfold mbind at 1, M_bind at 1.
  rewrite (with_open_ext _ _
             (λ f, for_each chunks (fwrite f))).
  2:{ intros f st' _. apply write_ide_chunks. }
  rewrite with_open_write_all. cbn [disk ide_ready with_self].
  destruct (open_error (disk st)) as [msg|]; [done |].
  cbn zeta. fold n.
  destruct (decide (length chunks ≤ n)%nat); done.
Qed.

End ide_run.

(** ** Running [ExportAsIPL.execute] *)

Section ipl_run.
Context `{Host}.
Implicit Types (st : St ExportAsIPL.props) (context : Context).

(** The writes do not touch the operator properties, so every line of one
    export is computed from the same [self]. *)
Lemma for_each_get_self {A} (g : ExportAsIPL.props → A → string) f
    (l : list A) st :
  for_each l (λ a, slf ← get_self; fwrite f (g slf a)) st
  = for_each (g (self st) <$> l) (fwrite f) st.
Proof.
  revert st. induction l as [|a l IH]; intros st; [done |].
  cbn [for_each fmap list_fmap]. rewrite !bind_run. cbn [get_self].
  destruct (fwrite f (g (self st) a) st) as [[e|[]] st'] eqn:E; [done |].
  apply fwrite_self in E. rewrite IH. by rewrite E.
Qed.

Lemma write_ipl_chunks f objs mapping st :
  ExportAsIPL.write_ipl f objs mapping st
  = for_each (ipl_chunks (self st) objs mapping) (fwrite f) st.
Proof.
  unfold ExportAsIPL.write_ipl, ipl_chunks. cbn [for_each].
  rewrite !bind_run.
  destruct (fwrite f _ st) as [[e|[]] st1] eqn:E; [done |].
  apply fwrite_self in E. rewrite <- E.
  rewrite for_each_app. rewrite !bind_run.
  rewrite (for_each_get_self
             (λ slf obj, ExportAsIPL.inst_line
                           (ExportAsIPL.inst_of slf mapping obj))).
  destruct (for_each _ _ st1) as [[e|[]] st2]; [done |].
  by rewrite for_each_singleton.
Qed.

Lemma validate_filepath_run st :
  ExportAsIPL.validate_filepath st =
  match ipl_path (ExportAsIPL.filepath (self st)) with
  | inl e => (inl e, st)
  | inr path => (inr tt, ipl_ready st path)
  end.
Proof.
  unfold ExportAsIPL.validate_filepath, ipl_path.
  rewrite !bind_run. cbn [get_self].
  case_bool_decide; [| done].
  by destruct (path_with_suffix _ _) as [e|p'].
Qed.

Lemma generate_mapping_run context objs st :
  ExportAsIPL.generate_mapping context objs st =
  match ExportAsIPL.start_id (self st) context with
  | inl e => (inl e, st)
  | inr start => (inr (ExportAsIPL.mapping_loop objs Dict.empty start), st)
  end.
Proof.
  unfold ExportAsIPL.generate_mapping.
  rewrite !bind_run. cbn [get_self].
  by destruct (ExportAsIPL.start_id (self st) context).
Qed.

(** Every run of the IPL exporter, case by case. *)
Lemma ipl_execute_run context st :
  let n := writes_ok (disk st) in
  ExportAsIPL.execute context st =
  match meshes context with
  | [] => (inr CANCELLED, add_report st WARNING "No mesh objects selected.")
  | _ :: _ =>
      match ipl_path (ExportAsIPL.filepath (self st)) with
      | inl e => (inl e, st)
      | inr path =>
          let st1 := ipl_ready st path in
          match ExportAsIPL.start_id (self st) context with
          | inl e => (inl e, st1)
          | inr start =>
              let mapping :=
                ExportAsIPL.mapping_loop (meshes context) Dict.empty start in
              let chunks := ipl_chunks (self st1) (meshes context) mapping in
              match open_error (disk st) with
              | Some msg =>
                  (inr CANCELLED,
                   add_report st1 ERROR ("IPL export failed: " +:+ msg))
              | None =>
                  if decide (length chunks ≤ n)%nat then
                    (inr FINISHED,
                     add_report
                       (opened st1 path (joined chunks) (n - length chunks))
                       INFO ("IPL export complete: " +:+ path))
                  else
                    (inr CANCELLED,
                     add_report
                       (opened st1 path (joined (take n chunks)) 0)
                       ERROR ("IPL export failed: " +:+ write_error (disk st)))
              end
          end
      end
  end.
Proof.
  intros n. unfold ExportAsIPL.execute. fold (meshes context).
  destruct (meshes context) as [|o objs] eqn:Hm; [done |].
  rewrite bind_run, validate_filepath_run.
  destruct (ipl_path _) as [e|path]; [done |].
  rewrite bind_run, generate_mapping_run.
  change (ExportAsIPL.start_id (self (ipl_ready st path)) context)
    with (ExportAsIPL.start_id (self st) context).
  destruct (ExportAsIPL.start_id (self st) context) as [e|start]; [done |].
  cbn zeta. rewrite bind_run. cbn [get_self].
  rewrite bind_run. unfold try_except. rewrite bind_run.
  rewrite (with_open_ext _ _
             (λ f, for_each
                     (ipl_chunks (self (ipl_ready st path)) (o :: objs)
                        (ExportAsIPL.mapping_loop (o :: objs) Dict.empty start))
                     (fwrite f))).
  2:{ intros f st' Hs. rewrite write_ipl_chunks. by rewrite Hs. }
  rewrite with_open_write_all.
  change (disk (ipl_ready st path)) with (disk st).
  destruct (open_error (disk st)) as [msg|]; [done |].
  cbn zeta. fold n.
  destruct (decide (_ ≤ n)%nat); done.
Qed.


End ipl_run.

(** ** Empty selections *)

Section no_input.
Context `{Host}.

(** C4: when the selection holds no mesh object, both exporters report the
    warning and return [CANCELLED]; the disk and the operator properties are
    as before the call, so no file is created, truncated or written. *)
Theorem no_meshes_cancels_without_writing (context : Context)
    (st_ide : St ExportAsIDE.props) (st_ipl : St ExportAsIPL.props) :
  meshes context = [] →
  ExportAsIDE.execute context st_ide
    = (inr CANCELLED, add_report st_ide WARNING "No mesh objects selected.")
  ∧ disk (ExportAsIDE.execute context st_ide).2 = disk st_ide
  ∧ ExportAsIPL.execute context st_ipl
    = (inr CANCELLED, add_report st_ipl WARNING "No mesh objects selected.")
  ∧ disk (ExportAsIPL.execute context st_ipl).2 = disk st_ipl.
Proof.
  intros Hm.
  pose proof (ide_execute_run context st_ide) as Hide.
  pose proof (ipl_execute_run context st_ipl) as Hipl.
  cbn zeta in Hide, Hipl. rewrite Hm in Hide, Hipl.
  rewrite Hide, Hipl. done.
Qed.

End no_input.

Lemma no_meshes_cancels_without_writing_witness :
  let context :=
    ExampleHost.context [ExampleHost.camera "Camera"; ExampleHost.camera "Sun"]
      (Some 4542) in
  let st_ide :=
    ExampleHost.ide_state "scene.ide" 4542
      (ExampleHost.disk_with {[ "scene.ide" := "old" ]} 10) in
  let st_ipl :=
    ExampleHost.ipl_state "scene.ipl" 4542 None
      (ExampleHost.disk_with {[ "scene.ipl" := "old" ]} 10) in
  ExportAsIDE.execute context st_ide
    = (inr CANCELLED, add_report st_ide WARNING "No mesh objects selected.")
  ∧ disk (ExportAsIDE.execute context st_ide).2 = disk st_ide
  ∧ ExportAsIPL.execute context st_ipl
    = (inr CANCELLED, add_report st_ipl WARNING "No mesh objects selected.")
  ∧ disk (ExportAsIPL.execute context st_ipl).2 = disk st_ipl.
Proof.
  intros context st_ide st_ipl.
  apply (@no_meshes_cancels_without_writing ExampleHost.host
           context st_ide st_ipl).
  reflexivity.
Defined.

(** ** Failures while the file is written *)

Section outcomes.
Context `{Host}.




End outcomes.


(** A failing first write leaves the file that [open] has just truncated:
    an earlier export at the same path is lost. *)
Example failed_export_truncates_existing_file :
  let context :=
    ExampleHost.context [ExampleHost.mesh "Wall.003" []] (Some 4542) in
  let st :=
    ExampleHost.ide_state "scene.ide" 100
      (ExampleHost.disk_with {[ "scene.ide" := "objs" +:+ nl +:+ "end" +:+ nl ]}
         0) in
  (ExportAsIDE.execute context st).1 = inr CANCELLED
  ∧ files (disk (ExportAsIDE.execute context st).2) !! "scene.ide" = Some "".
Proof. cbv zeta. split; by vm_compute. Qed.

Section success.
Context `{Host}.



End success.

(** ** The placeholder name *)

Section placeholder.
Context `{Host}.

(** The IPL exporter never uses an empty name: both of its uses of the
    resolver put "Unnamed" in its place. *)
Lemma ipl_name_placeholder (o : Object) :
  ipl_name o = (if bool_decide (base_name o = "") then "Unnamed"
                else base_name o)
  ∧ ipl_name o ≠ "".
Proof.
  unfold ipl_name, str_or. case_bool_decide; split; done.
Qed.

Lemma inst_name_placeholder slf mapping (o : Object) :
  ExportAsIPL.inst_name (ExportAsIPL.inst_of slf mapping o) = ipl_name o.
Proof. reflexivity. Qed.

(** The IDE exporter keeps the empty name as a key of [unique], and so
    writes a record with an empty name. *)
Lemma ide_keeps_empty_name objs (o : Object) start :
  o ∈ objs → base_name o = "" →
  "" ∈ Dict.keys (ExportAsIDE.unique_loop objs Dict.empty start).
Proof.
  intros Ho Hb. rewrite unique_loop_alloc, alloc_keys, <- first_seen_fmap.
  apply elem_of_first_seen_keys, list_elem_of_fmap. eauto.
Qed.

End placeholder.

(** C6 at a mesh object named ".001" in no collection: its canonical name
    is empty; the IPL exporter writes "Unnamed" for it, the IDE exporter
    writes the empty name. *)
Theorem ide_writes_empty_name :
  let context :=
    ExampleHost.context [ExampleHost.mesh ".001" []] (Some 4542) in
  let r_ide :=
    ExportAsIDE.execute context
      (ExampleHost.ide_state "scene.ide" 4542 (ExampleHost.disk_with ∅ 10)) in
  let r_ipl :=
    ExportAsIPL.execute context
      (ExampleHost.ipl_state "scene.ipl" 4542 None
         (ExampleHost.disk_with ∅ 10)) in
  r_ide.1 = inr FINISHED
  ∧ files (disk r_ide.2) !! "scene.ide"
    = Some ("objs" +:+ nl +:+ "4542, , generic, 299, 0" +:+ nl
            +:+ "end" +:+ nl)
  ∧ r_ipl.1 = inr FINISHED
  ∧ files (disk r_ipl.2) !! "scene.ipl"
    = Some ("# Exported with GTASceneSync" +:+ nl +:+ "inst" +:+ nl
            +:+ "4542, Unnamed, 0, 0.000000, 0.000000, 0.000000, "
            +:+ "0.000000, 0.000000, 0.000000, 1.000000, -1" +:+ nl
            +:+ "end" +:+ nl).
Proof. cbv zeta. repeat split; by vm_compute. Qed.

(** ** Agreement of the two exporters *)

Lemma alloc_key_ext {A V} (key1 key2 : A → string) (val : Z → A → V)
    (l : list A) d cur :
  Forall (λ a, key1 a = key2 a) l →
  alloc key1 val l d cur = alloc key2 val l d cur.
Proof.
  intros Hl. revert d cur. induction Hl as [|a l E _ IH]; intros d cur.
  - done.
  - cbn [alloc]. rewrite E. by rewrite !IH.
Qed.

Section agreement.
Context `{Host}.

(** X8: as long as no canonical name comes out empty, the two exporters
    build the same assignment of ids to names. *)
Lemma exporters_agree_on_named_objects (objs : list Object) (start : Z) :
  Forall (λ o, base_name o ≠ "") objs →
  ide_ids (ExportAsIDE.unique_loop objs Dict.empty start)
  = ExportAsIPL.mapping_loop objs Dict.empty start.
Proof.
  intros Hn. rewrite ide_ids_alloc, mapping_loop_alloc.
  apply alloc_key_ext. eapply Forall_impl; [exact Hn |].
  intros o Ho. cbn. unfold ipl_name, str_or.
  by rewrite bool_decide_eq_false_2.
Qed.

End agreement.

(** C2 at three mesh objects named ".001", "Unnamed" and "Wall", start id
    100: the IDE exporter gives the empty name and "Unnamed" an id each, the
    IPL exporter gives both the placeholder's id, and "Wall" ends up with
    102 in the IDE file and 101 in the IPL file. *)
Theorem exporters_disagree_after_empty_name :
  let objs := [ExampleHost.mesh ".001" []; ExampleHost.mesh "Unnamed" [];
               ExampleHost.mesh "Wall" []] in
  ide_ids (ExportAsIDE.unique_loop objs Dict.empty 100)
    = [("", 100); ("Unnamed", 101); ("Wall", 102)]
  ∧ ExportAsIPL.mapping_loop objs Dict.empty 100
    = [("Unnamed", 100); ("Wall", 101)]
  ∧ Dict.get "Wall" (ide_ids (ExportAsIDE.unique_loop objs Dict.empty 100))
    ≠ Dict.get "Wall" (ExportAsIPL.mapping_loop objs Dict.empty 100).
Proof. cbv zeta. repeat split; by vm_compute. Qed.

(** ** The start id *)

(** Model id zero with the scene setting at 5000: both exporters start at
    5000, not at 4542. *)
Lemma zero_model_id_starts_at_scene_setting :
  let context :=
    ExampleHost.context [ExampleHost.mesh "Wall" []] (Some 5000) in
  let st_ide :=
    ExampleHost.ide_state "scene.ide" 0 (ExampleHost.disk_with ∅ 10) in
  let st_ipl :=
    ExampleHost.ipl_state "scene.ipl" 0 None (ExampleHost.disk_with ∅ 10) in
  ExportAsIDE.model_id (self st_ide) = 0
  ∧ ExportAsIDE.start_id (self st_ide) context ≠ 4542
  ∧ ExportAsIPL.start_id (self st_ipl) context ≠ inr 4542
  ∧ files (disk (ExportAsIDE.execute context st_ide).2) !! "scene.ide"
    = Some ("objs" +:+ nl +:+ "5000, Wall, generic, 299, 0" +:+ nl
            +:+ "end" +:+ nl).
Proof. cbv zeta. repeat split; by vm_compute. Qed.

Section start_ids.
Context `{Host}.

(** C7, as the code has it: a non-zero model id is the start id, so the
    property default gives 4542; model id zero gives the scene's
    [gtass_model_id], which is 4542 in the scene as registered, and in the
    IDE exporter 4542 when the scene has no such property. *)
Theorem start_id_falls_back_to_scene_setting (context : Context)
    (ide : ExportAsIDE.props) (ipl : ExportAsIPL.props) :
  (ExportAsIDE.model_id ide = model_id_default →
   ExportAsIDE.start_id ide context = 4542)
  ∧ (ExportAsIPL.model_id ipl = model_id_default →
     ExportAsIPL.start_id ipl context = inr 4542)
  ∧ (ExportAsIDE.model_id ide = 0 →
     ExportAsIDE.start_id ide context
     = default 4542 (gtass_model_id (scene context)))
  ∧ (ExportAsIPL.model_id ipl = 0 →
     ∀ v, gtass_model_id (scene context) = Some v →
          ExportAsIPL.start_id ipl context = inr v)
  ∧ (scene context = registered_scene →
     ExportAsIDE.model_id ide = 0 → ExportAsIPL.model_id ipl = 0 →
     ExportAsIDE.start_id ide context = 4542
     ∧ ExportAsIPL.start_id ipl context = inr 4542).
Proof.
  unfold ExportAsIDE.start_id, ExportAsIPL.start_id, int_or, model_id_default.
  split; [by intros -> |]. split; [by intros -> |].
  split; [by intros -> |]. split; [by intros -> v -> |].
  intros Hs Hide Hipl. by rewrite Hs, Hide, Hipl.
Qed.

(** Any other model id is used as it is. *)
Lemma start_id_nonzero (context : Context)
    (ide : ExportAsIDE.props) (ipl : ExportAsIPL.props) :
  (ExportAsIDE.model_id ide ≠ 0 →
   ExportAsIDE.start_id ide context = ExportAsIDE.model_id ide)
  ∧ (ExportAsIPL.model_id ipl ≠ 0 →
     ExportAsIPL.start_id ipl context = inr (ExportAsIPL.model_id ipl)).
Proof.
  unfold ExportAsIDE.start_id, ExportAsIPL.start_id, int_or.
  split; intros Hne; by rewrite bool_decide_eq_false_2.
Qed.

(** [invoke] replaces a model id of 0 or 4542 by the scene setting when the
    scene has one, and leaves every other model id alone. *)
Lemma invoke_prefills_from_scene (context : Context)
    (ide : ExportAsIDE.props) (ipl : ExportAsIPL.props) v :
  gtass_model_id (scene context) = Some v →
  (ExportAsIDE.model_id ide = 0 ∨ ExportAsIDE.model_id ide = 4542 →
   ExportAsIDE.invoke_model_id ide context = v)
  ∧ (ExportAsIPL.model_id ipl = 0 ∨ ExportAsIPL.model_id ipl = 4542 →
     ExportAsIPL.invoke_model_id ipl context = v)
  ∧ (ExportAsIDE.model_id ide ≠ 0 → ExportAsIDE.model_id ide ≠ 4542 →
     ExportAsIDE.invoke_model_id ide context = ExportAsIDE.model_id ide)
  ∧ (ExportAsIPL.model_id ipl ≠ 0 → ExportAsIPL.model_id ipl ≠ 4542 →
     ExportAsIPL.invoke_model_id ipl context = ExportAsIPL.model_id ipl).
Proof.
  intros Hv. unfold ExportAsIDE.invoke_model_id, ExportAsIPL.invoke_model_id.
  rewrite Hv. repeat split.
  - by intros [-> | ->].
  - by intros [-> | ->].
  - intros Hz Hd.
    by rewrite (bool_decide_eq_false_2 _ Hz), (bool_decide_eq_false_2 _ Hd).
  - intros Hz Hd.
    by rewrite (bool_decide_eq_false_2 _ Hz), (bool_decide_eq_false_2 _ Hd).
Qed.

End start_ids.

Lemma start_id_falls_back_to_scene_setting_witness :
  let context := ExampleHost.context [] (Some 4542) in
  let ide := self (ExampleHost.ide_state "scene.ide" 0 (ExampleHost.disk_with ∅ 0)) in
  let ipl :=
    self (ExampleHost.ipl_state "scene.ipl" 0 None (ExampleHost.disk_with ∅ 0)) in
  ExportAsIDE.start_id ide context = 4542
  ∧ ExportAsIPL.start_id ipl context = inr 4542.
Proof.
  intros context ide ipl.
  apply (@start_id_falls_back_to_scene_setting ExampleHost.host
           context ide ipl); reflexivity.
Defined.

(** ** The emitted rotation *)

Section rotation.
Context `{Host}.


End rotation.


(** In the other order the sign of z would differ: [j * i = - k]. *)
Example rotation_order_matters :
  ExampleHost.qmul (mkQuaternion 0 1 0 0) (mkQuaternion 0 0 1 0)
  ≠ ExampleHost.qmul (mkQuaternion 0 0 1 0) (mkQuaternion 0 1 0 0).
Proof. vm_compute. discriminate. Qed.

(** ** Purity of the resolver *)

Section purity.
Context `{Host}.


End purity.


(** Between two resolutions a rename does change the name. *)
Example rename_changes_canonical_name :
  let store : @Store ExampleHost.host :=
    [ExampleHost.mesh "Wall.003" []; ExampleHost.mesh "Gate" []] in
  (resolve_at 1 store).1 = Some "Gate"
  ∧ (resolve_at 1 (batch_rename "TypeName" store)).1 = Some "TypeName_2".
Proof. by vm_compute. Qed.

(** ** Ids of the placement records *)

Section placement_ids.
Context `{Host}.

(** The id written for an object is the one its name was given. *)
Lemma inst_id_allocated slf (objs : list Object) start (o : Object) :
  o ∈ objs →
  let mapping := ExportAsIPL.mapping_loop objs Dict.empty start in
  let i := ExportAsIPL.inst_of slf mapping o in
  ∃ j : nat,
    (j < length (first_occurrences (ipl_name <$> objs)))%nat
    ∧ Dict.get (ExportAsIPL.inst_name i) mapping = Some (start + Z.of_nat j)
    ∧ ExportAsIPL.inst_id i = start + Z.of_nat j.
Proof.
  intros Ho mapping i. subst mapping i.
  destruct (alloc_get ipl_name (λ cur _, cur) objs start o Ho)
    as (j & b & _ & _ & Hj & Hget).
  rewrite <- mapping_loop_alloc in Hget.
  exists j. split; [by eapply lookup_lt_Some |]. split; [exact Hget |].
  unfold ExportAsIPL.inst_of. cbn [ExportAsIPL.inst_id].
  fold (ipl_name o). by rewrite Hget.
Qed.

(** C10: with the mapping built over the objects that are written, the
    lookup of each record's name succeeds and the record carries that id,
    which lies between the start id and the start id plus the number of
    distinct names; the fallback -1 is not used. *)
Theorem placement_ids_in_range (slf : ExportAsIPL.props)
    (objs : list Object) (start : Z) :
  let mapping := ExportAsIPL.mapping_loop objs Dict.empty start in
  let n := length (first_occurrences (ipl_name <$> objs)) in
  length (Dict.keys mapping) = n
  ∧ Forall (λ o,
      let i := ExportAsIPL.inst_of slf mapping o in
      Dict.get (ExportAsIPL.inst_name i) mapping = Some (ExportAsIPL.inst_id i)
      ∧ start ≤ ExportAsIPL.inst_id i < start + Z.of_nat n) objs.
Proof.
  intros mapping n. subst mapping n. split.
  - by rewrite mapping_loop_alloc, alloc_keys.
  - apply Forall_forall. intros o Ho.
    destruct (inst_id_allocated slf objs start o Ho) as (j & Hj & Hget & Hid).
    cbn zeta in *. rewrite Hid. split; [exact Hget | lia].
Qed.

(** With a start id that is not negative, no record carries -1. *)
Corollary placement_id_not_fallback slf (objs : list Object) start o :
  0 ≤ start → o ∈ objs →
  ExportAsIPL.inst_id
    (ExportAsIPL.inst_of slf
       (ExportAsIPL.mapping_loop objs Dict.empty start) o) ≠ -1.
Proof.
  intros Hs Ho.
  destruct (inst_id_allocated slf objs start o Ho) as (j & _ & _ & Hid).
  cbn zeta in Hid. rewrite Hid. lia.
Qed.

(** A finished IPL export wrote, between the header and [end], the lines of
    the records of the mesh objects, in order, with the mapping built over
    those same objects. *)
Lemma ipl_finished_text (context : Context) (st : St ExportAsIPL.props) :
  (ExportAsIPL.execute context st).1 = inr FINISHED →
  ∃ path start,
    ExportAsIPL.start_id (self st) context = inr start
    ∧ files (disk (ExportAsIPL.execute context st).2) !! path
      = Some (joined
                (ipl_chunks (self (ipl_ready st path)) (meshes context)
                   (ExportAsIPL.mapping_loop (meshes context)
                      Dict.empty start))).
Proof.
  pose proof (ipl_execute_run context st) as Hrun. cbn zeta in Hrun.
  rewrite Hrun. clear Hrun. intros Hfin.
  destruct (meshes context) as [|o objs]; [done |].
  destruct (ipl_path _) as [e|path]; [done |].
  destruct (ExportAsIPL.start_id _ _) as [e|start]; [done |].
  destruct (open_error (disk st)); [done |].
  destruct (decide _); [| done].
  exists path, start. split; [done |]. cbn. apply lookup_insert_eq.
Qed.

End placement_ids.

Example placement_ids_example :
  let objs := [ExampleHost.mesh "a" ["Tree1.dff"]; ExampleHost.mesh ".001" [];
               ExampleHost.mesh "b" ["Tree1.dff"]] in
  let slf :=
    self (ExampleHost.ipl_state "scene.ipl" 100 None
            (ExampleHost.disk_with ∅ 0)) in
  ExportAsIPL.inst_id
    <$> (ExportAsIPL.inst_of slf
           (ExportAsIPL.mapping_loop objs Dict.empty 100) <$> objs)
  = [100; 101; 100].
Proof. reflexivity. Qed.

(** The fallback is what a name outside the mapping would get. *)
Example fallback_outside_mapping :
  let slf :=
    self (ExampleHost.ipl_state "scene.ipl" 100 None
            (ExampleHost.disk_with ∅ 0)) in
  ExportAsIPL.inst_id
    (ExportAsIPL.inst_of slf [("Wall", 100)] (ExampleHost.mesh "Gate" []))
  = -1.
Proof. reflexivity. Qed.

(** The end-to-end example of two objects in the collection "Tree1.dff"
    with start id 100: one IDE record, two IPL records with id 100. *)
Example tree_end_to_end :
  let context :=
    ExampleHost.context
      [ExampleHost.mesh "Cube" ["Tree1.dff"];
       ExampleHost.mesh "Cube.001" ["Tree1.dff"]] (Some 4542) in
  let r_ide :=
    ExportAsIDE.execute context
      (ExampleHost.ide_state "trees" 100 (ExampleHost.disk_with ∅ 10)) in
  let r_ipl :=
    ExportAsIPL.execute context
      (ExampleHost.ipl_state "trees" 100 None (ExampleHost.disk_with ∅ 10)) in
  files (disk r_ide.2) !! "trees.ide"
    = Some ("objs" +:+ nl +:+ "100, Tree1, generic, 299, 0" +:+ nl
            +:+ "end" +:+ nl)
  ∧ files (disk r_ipl.2) !! "trees.ipl"
    = Some ("# Exported with GTASceneSync" +:+ nl +:+ "inst" +:+ nl
            +:+ "100, Tree1, 0, 0.000000, 0.000000, 0.000000, "
            +:+ "0.000000, 0.000000, 0.000000, 1.000000, -1" +:+ nl
            +:+ "100, Tree1, 0, 0.000000, 0.000000, 0.000000, "
            +:+ "0.000000, 0.000000, 0.000000, 1.000000, -1" +:+ nl
            +:+ "end" +:+ nl).
Proof. cbv zeta. split; by vm_compute. Qed.

(** * Further properties of the add-on *)

(** ** What the cleaners remove and what they keep *)

Lemma at_eol_no_digit t k :
  Re.at_eol t = true → Re.match_plus is_digit k t = None.
Proof.
  intros [-> | ->]%at_eol_spec; reflexivity.
Qed.

Lemma at_eol_no_match ic p t :
  Re.at_eol t = true →
  Re.match_here ic (Re.One (Re.Chr ".") :: p) t = None.
Proof.
  intros [-> | ->]%at_eol_spec; [done |].
  cbn. by destruct ic.
Qed.

Lemma match_plus_digits_eol ds t :
  digits ds = true → ds ≠ "" → Re.at_eol t = true →
  Re.match_plus is_digit eol_only (ds +:+ t) = Some (String.length ds).
Proof.
  intros Hd Hne Ht. induction ds as [|a ds IH]; [done |].
  cbn [digits] in Hd. apply andb_true_iff in Hd as [Ha Hd].
  rewrite str_app_cons. cbn [Re.match_plus]. rewrite Ha.
  destruct ds as [|b ds].
  - rewrite str_app_nil_l, (at_eol_no_digit t) by done.
    unfold eol_only. by rewrite Ht.
  - by rewrite IH.
Qed.

(** Dropping the characters of a match goes on with what follows it. *)
Lemma sub_go_skip ic p repl x t :
  Re.sub_go ic p repl (String.length x) (x +:+ t) = Re.sub_go ic p repl 0 t.
Proof.
  induction x as [|a x IH]; [done |]. rewrite str_app_cons. cbn. apply IH.
Qed.

Lemma sub_go_at_eol ic p repl t :
  Re.at_eol t = true →
  Re.sub_go ic (Re.One (Re.Chr ".") :: p) repl 0 t = t.
Proof.
  intros [-> | ->]%at_eol_spec; [done |]. cbn. by destruct ic.
Qed.

Lemma no_digits_match_before_suffix_eol a b ds t :
  digits ds = true → ds ≠ "" → Re.at_eol t = true →
  Re.match_here false digits_pattern (String a (b +:+ String "." (ds +:+ t)))
  = None.
Proof.
  intros Hd Hne Ht.
  destruct (Re.match_here _ _ _) as [n|] eqn:E; [| done]. exfalso.
  cbn in E. case_bool_decide; [| done].
  change (Re.match_plus is_digit
            (λ s, if Re.at_eol s then Some 0%nat else None))
    with (Re.match_plus is_digit eol_only) in E.
  destruct (Re.match_plus _ _ _) as [m|] eqn:Em; [| done].
  apply match_plus_digits_shape in Em as (ds' & t' & Es & Hd' & _ & Ht' & _).
  symmetry in Es.
  pose proof (digits_before_dot _ _ _ _ Hd' Es) as Hle.
  apply (f_equal String.length) in Es. rewrite !str_app_length in Es.
  cbn [String.length] in Es. rewrite str_app_length in Es.
  assert (0 < String.length ds)%nat by (destruct ds; [done | cbn; lia]).
  apply at_eol_spec in Ht' as [-> | ->]; cbn in Es; lia.
Qed.

(** X1: a name that ends in a dot and one or more digits, possibly before a
    final newline, loses exactly that suffix whatever stands before it: only
    the last numeric suffix goes, and the newline stays. *)
Theorem clean_name_removes_numeric_suffix b ds t :
  digits ds = true → ds ≠ "" → Re.at_eol t = true →
  clean_name (b +:+ String "." ds +:+ t) = b +:+ t.
Proof.
  intros Hd Hne Ht. unfold clean_name, Re.re_sub.
  rewrite (str_app_cons "." ds t).
  induction b as [|a b IH].
  - rewrite !str_app_nil_l. cbn [Re.sub_go].
    assert (Re.match_here false digits_pattern (String "." (ds +:+ t))
            = Some (S (String.length ds))) as ->.
    { cbn.
      change (Re.match_plus is_digit
                (λ s, if Re.at_eol s then Some 0%nat else None))
        with (Re.match_plus is_digit eol_only).
      by rewrite match_plus_digits_eol. }
    rewrite str_app_nil_l, sub_go_skip. by apply sub_go_at_eol.
  - rewrite !(str_app_cons a). cbn [Re.sub_go].
    rewrite no_digits_match_before_suffix_eol by done. by rewrite IH.
Qed.

Lemma clean_name_removes_numeric_suffix_witness :
  clean_name ("Wall.003.12" +:+ nl) = "Wall.003" +:+ nl.
Proof.
  apply (clean_name_removes_numeric_suffix "Wall.003" "12" nl);
    [reflexivity | discriminate | reflexivity].
Defined.

Lemma match_plus_digits_to_eol s n :
  Re.match_plus is_digit eol_only s = Some n → digits_to_eol s = true.
Proof.
  revert n. induction s as [|a s IH]; intros n; [done |].
  cbn [Re.match_plus digits_to_eol]. destruct (is_digit a); [| done].
  destruct (Re.match_plus is_digit eol_only s) as [m|] eqn:E.
  - intros _. by rewrite (IH m).
  - unfold eol_only. destruct (Re.at_eol s); [| done].
    intros _. by rewrite orb_true_r.
Qed.

Lemma match_digits_pattern_shape s n :
  Re.match_here false digits_pattern s = Some n →
  ∃ s', s = String "." s' ∧ digits_to_eol s' = true.
Proof.
  destruct s as [|a s']; [done |]. cbn. case_bool_decide as Ea; [| done].
  change (Re.match_plus is_digit
            (λ s, if Re.at_eol s then Some 0%nat else None))
    with (Re.match_plus is_digit eol_only).
  destruct (Re.match_plus _ _ _) as [m|] eqn:Em; [| done]. intros _.
  subst a. exists s'. split; [done |]. by eapply match_plus_digits_to_eol.
Qed.

(** X2: a name in which no dot is followed by digits up to the end is
    returned as it is; in particular a numeric suffix in the middle of a
    name, or one followed by other characters, is kept. *)
Theorem clean_name_keeps_other_names s :
  ends_numeric s = false → clean_name s = s.
Proof.
  unfold clean_name, Re.re_sub. induction s as [|a s IH]; intros Hs.
  - done.
  - cbn [ends_numeric] in Hs. apply orb_false_iff in Hs as [Ha Hs].
    cbn [Re.sub_go].
    destruct (Re.match_here _ _ _) as [n|] eqn:E.
    + apply match_digits_pattern_shape in E as (s' & [= -> ->] & Hd).
      by rewrite Hd in Ha.
    + by rewrite IH.
Qed.

Lemma clean_name_keeps_other_names_witness :
  clean_name "Wall.003.L" = "Wall.003.L".
Proof. apply (clean_name_keeps_other_names "Wall.003.L"). reflexivity. Defined.

Lemma digits_to_eol_decompose s :
  digits_to_eol s = true →
  ∃ ds t, s = ds +:+ t ∧ digits ds = true ∧ ds ≠ "" ∧ Re.at_eol t = true.
Proof.
  induction s as [|a s IH]; [done |]. cbn [digits_to_eol].
  intros [Ha [Hs | Hs]%orb_true_iff]%andb_true_iff.
  - destruct (IH Hs) as (ds & t & -> & Hd & _ & Ht).
    exists (String a ds), t. cbn. by rewrite Ha, Hd.
  - exists (String a ""), s. cbn. by rewrite Ha.
Qed.

(** The names X2 leaves out are exactly those of the form X1 covers. *)
Lemma ends_numeric_decompose s :
  ends_numeric s = true →
  ∃ b ds t, s = b +:+ String "." ds +:+ t
            ∧ digits ds = true ∧ ds ≠ "" ∧ Re.at_eol t = true.
Proof.
  induction s as [|a s IH]; [done |]. cbn [ends_numeric].
  intros [[Ha Hs]%andb_true_iff | Hs]%orb_true_iff.
  - apply bool_decide_eq_true in Ha as ->.
    destruct (digits_to_eol_decompose s Hs) as (ds & t & -> & Hd & Hne & Ht).
    by exists "", ds, t.
  - destruct (IH Hs) as (b & ds & t & -> & Hd & Hne & Ht).
    by exists (String a b), ds, t.
Qed.

(** ** Suffixes of strings *)

Lemma lower_app s t : lower (s +:+ t) = lower s +:+ lower t.
Proof.
  induction s as [|a s IH]; [done |]. rewrite str_app_cons. cbn [lower].
  by rewrite IH, str_app_cons.
Qed.

Lemma rev_app_acc s acc : String.rev_app s acc = String.rev s +:+ acc.
Proof.
  unfold String.rev. revert acc. induction s as [|a s IH]; intros acc.
  - done.
  - cbn [String.rev_app]. rewrite (IH (String a acc)), (IH (String a "")).
    by rewrite str_app_assoc.
Qed.

Lemma rev_cons a s : String.rev (String a s) = String.rev s +:+ String a "".
Proof. unfold String.rev at 1. cbn [String.rev_app]. apply rev_app_acc. Qed.

Lemma rev_app s t : String.rev (s +:+ t) = String.rev t +:+ String.rev s.
Proof.
  induction s as [|a s IH].
  - by rewrite str_app_nil_l, str_app_nil_r.
  - by rewrite str_app_cons, !rev_cons, IH, str_app_assoc.
Qed.

Lemma prefix_app p q : String.prefix p (p +:+ q) = true.
Proof.
  induction p as [|a p IH]; [by destruct q |].
  rewrite str_app_cons. cbn. by destruct (ascii_dec a a).
Qed.

Lemma endswith_app s suffix : endswith (s +:+ suffix) suffix = true.
Proof. unfold endswith. rewrite rev_app. apply prefix_app. Qed.

(** ** [clean_collection_name] beyond the suffix itself *)

Lemma no_dff_match_before_suffix_eol a b sfx t :
  lower sfx = ".dff" → Re.at_eol t = true →
  Re.match_here true dff_pattern (String a (b +:+ sfx +:+ t)) = None.
Proof.
  intros Hs Ht.
  destruct (Re.match_here _ _ _) as [n|] eqn:E; [| done]. exfalso.
  apply match_dff_shape in E as (c1 & c2 & c3 & c4 & t' & Es & Ht').
  pose proof (f_equal String.length Es) as Hlen.
  cbn [String.length] in Hlen. rewrite !str_app_length in Hlen.
  pose proof (lower_length sfx) as Hl. rewrite Hs in Hl. cbn in Hl.
  assert (String.length t ≤ 1)%nat as Hlt.
  { apply at_eol_spec in Ht as [-> | ->]; cbn; lia. }
  destruct sfx as [|x1 [|x2 [|x3 [|x4 [|? ?]]]]]; try discriminate.
  cbn [lower] in Hs. injection Hs as _ _ _ Hf.
  apply at_eol_spec in Ht' as [-> | ->]; cbn in Hlen; [lia |].
  destruct b as [|y b]; [| cbn in Hlen; lia].
  destruct t as [|z t]; [| cbn in Hlen; lia].
  rewrite str_app_nil_l in Es. unfold nl in Es.
  injection Es as _ _ _ _ ->. by vm_compute in Hf.
Qed.

(** X3: a collection name that ends in [.dff], in any letter case and
    possibly before a final newline, loses exactly that suffix whatever
    stands before it. *)
Theorem clean_collection_name_removes_dff b sfx t :
  lower sfx = ".dff" → Re.at_eol t = true →
  clean_collection_name (b +:+ sfx +:+ t) = b +:+ t.
Proof.
  intros Hs Ht. unfold clean_collection_name, Re.re_sub.
  induction b as [|a b IH].
  - rewrite !str_app_nil_l.
    apply lower_dff in Hs. apply at_eol_spec in Ht as [-> | ->];
      repeat (apply elem_of_cons in Hs as [-> | Hs]; [reflexivity |]);
      by apply elem_of_nil in Hs.
  - rewrite !(str_app_cons a). cbn [Re.sub_go].
    rewrite no_dff_match_before_suffix_eol by done. by rewrite IH.
Qed.

Lemma clean_collection_name_removes_dff_witness :
  clean_collection_name "props.dff.DfF" = "props.dff".
Proof.
  apply (clean_collection_name_removes_dff "props.dff" ".DfF" "");
    reflexivity.
Defined.

(** A match of [\.dff$] at some position shows in the lower-cased name. *)
Lemma match_dff_endswith pre u n :
  Re.match_here true dff_pattern u = Some n →
  endswith (lower (pre +:+ u)) ".dff" = true
  ∨ endswith (lower (pre +:+ u)) (".dff" +:+ nl) = true.
Proof.
  intros E. pose proof E as E'.
  apply match_dff_shape in E' as (c1 & c2 & c3 & c4 & t & -> & Ht).
  cbn in E.
  case_bool_decide as E1; [| done]. case_bool_decide as E2; [| done].
  case_bool_decide as E3; [| done]. case_bool_decide as E4; [| done].
  assert (lower (String c1 (String c2 (String c3 (String c4 "")))) = ".dff")
    as Hl.
  { cbn [lower]. by rewrite E1, E2, E3, E4. }
  change (String c1 (String c2 (String c3 (String c4 t))))
    with (String c1 (String c2 (String c3 (String c4 ""))) +:+ t).
  rewrite !lower_app, Hl.
  apply at_eol_spec in Ht as [-> | ->].
  - left. cbn [lower]. rewrite str_app_nil_r. apply endswith_app.
  - right. change (lower nl) with nl. apply endswith_app.
Qed.

(** X4: a collection name that does not end in [.dff], compared without
    regard to letter case and also before a final newline, is returned as
    it is. *)
Theorem clean_collection_name_keeps_other_names s :
  endswith (lower s) ".dff" = false →
  endswith (lower s) (".dff" +:+ nl) = false →
  clean_collection_name s = s.
Proof.
  unfold clean_collection_name, Re.re_sub.
  assert (∀ pre s,
            endswith (lower (pre +:+ s)) ".dff" = false →
            endswith (lower (pre +:+ s)) (".dff" +:+ nl) = false →
            Re.sub_go true dff_pattern "" 0 s = s) as Hgen.
  { clear s. intros pre s. revert pre.
    induction s as [|a s IH]; intros pre H1 H2; [done |].
    cbn [Re.sub_go].
    destruct (Re.match_here _ _ _) as [n|] eqn:E.
    - destruct (match_dff_endswith pre _ _ E); congruence.
    - f_equal. apply (IH (pre +:+ String a "")).
      + by rewrite str_app_assoc.
      + by rewrite str_app_assoc. }
  intros H1 H2. by apply (Hgen "").
Qed.

Lemma clean_collection_name_keeps_other_names_witness :
  clean_collection_name "Tree.dff.001" = "Tree.dff.001".
Proof.
  apply (clean_collection_name_keeps_other_names "Tree.dff.001");
    reflexivity.
Defined.

(** ** The path of the IDE file *)

Lemma ide_path_endswith fp : endswith (lower (ide_path fp)) ".ide" = true.
Proof.
  unfold ide_path. destruct (endswith (lower fp) ".ide") eqn:E; [done |].
  rewrite lower_app. apply endswith_app.
Qed.


Section ide_path_facts.
Context `{Host}.

(** X5: whenever a mesh object is selected, [ExportAsIDE.execute] leaves
    [self.filepath] ending in [.ide] (in any letter case): a path that
    already ends so is kept, any other path gets [.ide] appended, and
    [model_id] is not changed; this holds on failure as well as on
    success. *)
Theorem ide_filepath_gets_extension (context : Context)
    (st : St ExportAsIDE.props) :
  meshes context ≠ [] →
  let fp := ExportAsIDE.filepath (self st) in
  let slf' := self (ExportAsIDE.execute context st).2 in
  endswith (lower (ExportAsIDE.filepath slf')) ".ide" = true
  ∧ ExportAsIDE.filepath slf'
    = (if endswith (lower fp) ".ide" then fp else fp +:+ ".ide")
  ∧ ExportAsIDE.model_id slf' = ExportAsIDE.model_id (self st).
Proof.
  intros Hm fp slf'.
  assert (slf' = self (ide_ready st)) as ->.
  { subst slf'. pose proof (ide_execute_run context st) as Hrun.
    cbn zeta in Hrun. rewrite Hrun.
    destruct (meshes context); [done |].
    destruct (open_error (disk st)); [done |].
    by destruct (decide _). }
  cbn. split; [apply ide_path_endswith | done].
Qed.

End ide_path_facts.

Lemma ide_filepath_gets_extension_witness :
  let context := ExampleHost.context [ExampleHost.mesh "Wall" []] None in
  let st :=
    ExampleHost.ide_state "maps/Scene.IDE.bak" 7
      (ExampleHost.disk_with ∅ 1) in
  let slf' := self (ExportAsIDE.execute context st).2 in
  endswith (lower (ExportAsIDE.filepath slf')) ".ide" = true
  ∧ ExportAsIDE.filepath slf' = "maps/Scene.IDE.bak.ide"
  ∧ ExportAsIDE.model_id slf' = 7.
Proof.
  intros context st.
  apply (@ide_filepath_gets_extension ExampleHost.host context st).
  discriminate.
Defined.

(** ** What a run reports and what it leaves alone *)

Section run_facts.
Context `{Host}.

(** X11: objects that are not meshes play no part in an export: both
    exporters behave on a selection exactly as on its mesh objects alone,
    in result, reports, operator properties and files. *)
Theorem exporters_ignore_other_objects (context : Context)
    (st_ide : St ExportAsIDE.props) (st_ipl : St ExportAsIPL.props) :
  ExportAsIDE.execute context st_ide
    = ExportAsIDE.execute (meshes_only context) st_ide
  ∧ ExportAsIPL.execute context st_ipl
    = ExportAsIPL.execute (meshes_only context) st_ipl.
Proof.
  assert (meshes (meshes_only context) = meshes context) as Hm.
  { unfold meshes_only, meshes at 1. cbn. unfold meshes.
    rewrite list_filter_filter. apply list_filter_iff. tauto. }
  split.
  - pose proof (ide_execute_run context st_ide) as H1.
    pose proof (ide_execute_run (meshes_only context) st_ide) as H2.
    cbn zeta in H1, H2. rewrite Hm in H2. by rewrite H1, H2.
  - pose proof (ipl_execute_run context st_ipl) as H1.
    pose proof (ipl_execute_run (meshes_only context) st_ipl) as H2.
    cbn zeta in H1, H2. rewrite Hm in H2. by rewrite H1, H2.
Qed.

(** X12: [ExportAsIDE.execute] never lets an exception out: every run
    returns [FINISHED] or [CANCELLED] and makes exactly one report, [INFO]
    exactly when it finished.  [ExportAsIPL.execute] does the same, except
    that a failure to fix the path or to read the start id leaves as an
    exception, with no report made and no file touched. *)
Theorem execute_reports_once (context : Context)
    (st_ide : St ExportAsIDE.props) (st_ipl : St ExportAsIPL.props) :
  reported_once st_ide (ExportAsIDE.execute context st_ide)
  ∧ (reported_once st_ipl (ExportAsIPL.execute context st_ipl)
     ∨ ∃ e, (ExportAsIPL.execute context st_ipl).1 = inl e
            ∧ reports (ExportAsIPL.execute context st_ipl).2 = reports st_ipl
            ∧ disk (ExportAsIPL.execute context st_ipl).2 = disk st_ipl
            ∧ (ipl_path (ExportAsIPL.filepath (self st_ipl)) = inl e
               ∨ ExportAsIPL.start_id (self st_ipl) context = inl e)).
Proof.
  split.
  - pose proof (ide_execute_run context st_ide) as Hrun. cbn zeta in Hrun.
    rewrite Hrun. unfold reported_once.
    destruct (meshes context); [by exists WARNING; eexists |].
    destruct (open_error (disk st_ide)); [by exists ERROR; eexists |].
    destruct (decide _); [by exists INFO; eexists | by exists ERROR; eexists].
  - pose proof (ipl_execute_run context st_ipl) as Hrun. cbn zeta in Hrun.
    rewrite Hrun. unfold reported_once.
    destruct (meshes context); [left; by exists WARNING; eexists |].
    destruct (ipl_path _) as [e|path] eqn:Hp.
    { right. exists e. auto. }
    destruct (ExportAsIPL.start_id _ _) as [e|start] eqn:Hs.
    { right. exists e. auto. }
    left.
    destruct (open_error (disk st_ipl)); [by exists ERROR; eexists |].
    destruct (decide _); [by exists INFO; eexists | by exists ERROR; eexists].
Qed.

(** X13: an export touches no file but its own: every path other than the
    one the exporter writes to holds after the run what it held before,
    whether the run finished, was cancelled or raised. *)
Theorem export_touches_only_its_file (context : Context)
    (st_ide : St ExportAsIDE.props) (st_ipl : St ExportAsIPL.props)
    (p : string) :
  (p ≠ ide_path (ExportAsIDE.filepath (self st_ide)) →
   files (disk (ExportAsIDE.execute context st_ide).2) !! p
   = files (disk st_ide) !! p)
  ∧ (ipl_path (ExportAsIPL.filepath (self st_ipl)) ≠ inr p →
     files (disk (ExportAsIPL.execute context st_ipl).2) !! p
     = files (disk st_ipl) !! p).
Proof.
  split.
  - intros Hp.
    pose proof (ide_execute_run context st_ide) as Hrun. cbn zeta in Hrun.
    rewrite Hrun.
    destruct (meshes context); [done |].
    destruct (open_error (disk st_ide)); [done |].
    destruct (decide _); cbn; by rewrite lookup_insert_ne.
  - intros Hp.
    pose proof (ipl_execute_run context st_ipl) as Hrun. cbn zeta in Hrun.
    rewrite Hrun.
    destruct (meshes context); [done |].
    destruct (ipl_path _) as [e|path]; [done |].
    assert (path ≠ p) by congruence.
    destruct (ExportAsIPL.start_id _ _); [done |].
    destruct (open_error (disk st_ipl)); [done |].
    destruct (decide _); cbn; by rewrite lookup_insert_ne.
Qed.

End run_facts.

Lemma export_touches_only_its_file_witness :
  let context := ExampleHost.context [ExampleHost.mesh "Wall" []] None in
  let st_ide :=
    ExampleHost.ide_state "scene" 7
      (ExampleHost.disk_with {[ "scene" := "notes" ]} 10) in
  let st_ipl :=
    ExampleHost.ipl_state "scene" 7 None
      (ExampleHost.disk_with {[ "scene" := "notes" ]} 1) in
  files (disk (ExportAsIDE.execute context st_ide).2) !! "scene" = Some "notes"
  ∧ files (disk (ExportAsIPL.execute context st_ipl).2) !! "scene"
    = Some "notes".
Proof.
  intros context st_ide st_ipl.
  destruct (@export_touches_only_its_file ExampleHost.host context
              st_ide st_ipl "scene") as [Hide Hipl].
  split; [apply Hide | apply Hipl]; by vm_compute.
Defined.

(** ** Successful exports in examples *)



Lemma exporters_agree_on_named_objects_witness :
  let objs :=
    [ExampleHost.mesh "Wall.003" []; ExampleHost.mesh "a" ["Tree1.dff"];
     ExampleHost.mesh "Wall.001" []] in
  ide_ids (ExportAsIDE.unique_loop objs Dict.empty 100)
  = ExportAsIPL.mapping_loop objs Dict.empty 100.
Proof.
  intros objs.
  apply (@exporters_agree_on_named_objects ExampleHost.host objs 100).
  repeat (apply Forall_cons_2; [vm_compute; discriminate |]).
  apply Forall_nil_2.
Defined.

(** ** Records of the two files against each other *)

Lemma first_seen_app {A} (key : A → string) (l1 l2 : list A) :
  first_seen key (l1 ++ l2)
  = first_seen key l1
    ++ filter (λ a, key a ∉ key <$> l1) (first_seen key l2).
Proof.
  induction l1 as [|a l1 IH].
  - cbn. symmetry. induction (first_seen key l2) as [|b t IHt]; [done |].
    rewrite filter_cons_True by apply not_elem_of_nil. by f_equal.
  - cbn [app first_seen]. rewrite IH, filter_app. cbn [app fmap list_fmap].
    do 2 f_equal. rewrite list_filter_filter. apply list_filter_iff.
    intros b. rewrite not_elem_of_cons. tauto.
Qed.

Lemma id_run_NoDup start n : NoDup (id_run start n).
Proof.
  unfold id_run. apply NoDup_fmap_2; [| apply NoDup_seq].
  intros i j Hij. lia.
Qed.

Section cross_file.
Context `{Host}.
Implicit Types (objs : list Object).

(** X9: when no canonical name comes out empty, every placement record has
    its definition: the IDE dictionary built over the same objects from the
    same start id holds an entry under the record's name, and that entry
    carries the record's id. *)
Theorem placement_records_have_definitions (slf : ExportAsIPL.props)
    objs (start : Z) :
  Forall (λ o, base_name o ≠ "") objs →
  let unique := ExportAsIDE.unique_loop objs Dict.empty start in
  let mapping := ExportAsIPL.mapping_loop objs Dict.empty start in
  Forall (λ o,
    let i := ExportAsIPL.inst_of slf mapping o in
    ∃ e, Dict.get (ExportAsIPL.inst_name i) unique = Some e
         ∧ ExportAsIDE.entry_id e = ExportAsIPL.inst_id i) objs.
Proof.
  intros Hn unique mapping. apply Forall_forall. intros o Ho.
  destruct (inst_id_allocated slf objs start o Ho) as (j & _ & Hget & Hid).
  cbn zeta in *. fold mapping in Hget, Hid. rewrite Hid.
  assert (ide_ids unique = mapping) as Hagree.
  { subst unique mapping. rewrite ide_ids_alloc, mapping_loop_alloc.
    apply alloc_key_ext. eapply Forall_impl; [exact Hn |].
    intros o' Ho'. cbn. unfold ipl_name, str_or.
    by rewrite bool_decide_eq_false_2. }
  rewrite <- Hagree, ide_ids_get in Hget.
  destruct (Dict.get _ unique) as [e|]; [| done].
  exists e. split; [done |]. by injection Hget.
Qed.

(** X10: the IDE record of a name is taken from the first object that
    resolves to it: for an object [b] that no earlier object shares its
    name with, the record under that name carries the texture name, the
    draw distance and the flag of [b], whatever the later objects of that
    name carry, and its id is the start id plus the number of distinct
    names before [b]. *)
Theorem ide_record_from_first_object (pre post : list Object) (b : Object)
    (start : Z) :
  Forall (λ o, base_name o ≠ base_name b) pre →
  Dict.get (base_name b)
    (ExportAsIDE.unique_loop (pre ++ b :: post) Dict.empty start)
  = Some (start + Z.of_nat (length (first_occurrences (base_name <$> pre))),
          texture_name (ide_flags b), render_distance (ide_flags b),
          ide_flag (ide_flags b)).
Proof.
  intros Hpre. rewrite unique_loop_alloc.
  set (j := length (first_occurrences (base_name <$> pre))).
  apply (dict_get_lookup _ j).
  - rewrite alloc_keys, <- first_seen_fmap. apply first_seen_NoDup.
  - rewrite alloc_empty, list_lookup_imap, first_seen_app.
    assert (j = length (first_seen base_name pre)) as Hj.
    { subst j. by rewrite <- first_seen_fmap, length_fmap. }
    rewrite lookup_app_r by lia. rewrite Hj, Nat.sub_diag.
    cbn [first_seen]. rewrite filter_cons_True.
    + done.
    + intros (o & Ho & Hin)%list_elem_of_fmap.
      rewrite Forall_forall in Hpre. by apply (Hpre o).
Qed.

(** X14: ids separate names and nothing else: two objects of an export get
    the same placement id exactly when they resolve to the same name, and
    no id occurs twice among the IDE records. *)
Theorem same_id_iff_same_name (slf : ExportAsIPL.props) objs (start : Z)
    (o1 o2 : Object) :
  o1 ∈ objs → o2 ∈ objs →
  let mapping := ExportAsIPL.mapping_loop objs Dict.empty start in
  (ExportAsIPL.inst_id (ExportAsIPL.inst_of slf mapping o1)
   = ExportAsIPL.inst_id (ExportAsIPL.inst_of slf mapping o2)
   ↔ ipl_name o1 = ipl_name o2)
  ∧ NoDup (ExportAsIDE.entry_id
             <$> Dict.values (ExportAsIDE.unique_loop objs Dict.empty start)).
Proof.
  intros H1 H2 mapping. split.
  - subst mapping. rewrite mapping_loop_alloc.
    destruct (alloc_get ipl_name (λ cur _, cur) objs start o1 H1)
      as (j1 & b1 & _ & _ & Hj1 & Hg1).
    destruct (alloc_get ipl_name (λ cur _, cur) objs start o2 H2)
      as (j2 & b2 & _ & _ & Hj2 & Hg2).
    unfold ExportAsIPL.inst_of. cbn [ExportAsIPL.inst_id].
    fold (ipl_name o1) (ipl_name o2). rewrite Hg1, Hg2. cbn.
    split.
    + intros E. assert (j1 = j2) as -> by lia. congruence.
    + intros E. rewrite E in Hg1. congruence.
  - destruct (alloc_allocates base_name objs start) as (_ & Hv & _).
    rewrite <- ide_ids_alloc in Hv.
    replace (ExportAsIDE.entry_id <$> Dict.values _)
      with (Dict.values
              (ide_ids (ExportAsIDE.unique_loop objs Dict.empty start))).
    + rewrite Hv. apply id_run_NoDup.
    + unfold ide_ids, Dict.values. rewrite <- !list_fmap_compose.
      apply list_fmap_ext. by intros ? [? ?].
Qed.

End cross_file.

Lemma placement_records_have_definitions_witness :
  let objs :=
    [ExampleHost.mesh "Wall.003" []; ExampleHost.mesh "a" ["Tree1.dff"];
     ExampleHost.mesh "Wall.001" []] in
  let slf :=
    self (ExampleHost.ipl_state "scene.ipl" 100 None
            (ExampleHost.disk_with ∅ 0)) in
  let unique := ExportAsIDE.unique_loop objs Dict.empty 100 in
  let mapping := ExportAsIPL.mapping_loop objs Dict.empty 100 in
  Forall (λ o,
    let i := ExportAsIPL.inst_of slf mapping o in
    ∃ e, Dict.get (ExportAsIPL.inst_name i) unique = Some e
         ∧ ExportAsIDE.entry_id e = ExportAsIPL.inst_id i) objs.
Proof.
  intros objs slf.
  apply (@placement_records_have_definitions ExampleHost.host slf objs 100).
  repeat (apply Forall_cons_2; [vm_compute; discriminate |]).
  apply Forall_nil_2.
Defined.

Lemma ide_record_from_first_object_witness :
  let first :=
    BatchSetTXD.set_texture_name (ExampleHost.mesh "a" ["Tree1.dff"]) "trees" in
  let later :=
    BatchSetTXD.set_texture_name (ExampleHost.mesh "b" ["Tree1.DFF"]) "other" in
  Dict.get "Tree1"
    (ExportAsIDE.unique_loop
       ([ExampleHost.mesh "Wall.003" []; ExampleHost.mesh "Wall.001" []]
        ++ first :: [later]) Dict.empty 100)
  = Some (101, "trees", 299, "0").
Proof.
  intros first later.
  apply (@ide_record_from_first_object ExampleHost.host
           [ExampleHost.mesh "Wall.003" []; ExampleHost.mesh "Wall.001" []]
           [later] first 100).
  repeat (apply Forall_cons_2; [vm_compute; discriminate |]).
  apply Forall_nil_2.
Defined.

Lemma same_id_iff_same_name_witness :
  let o1 := ExampleHost.mesh "a" ["Tree1.dff"] in
  let o2 := ExampleHost.mesh "b" ["Tree1.DFF"] in
  let objs := [o1; ExampleHost.mesh "Wall" []; o2] in
  let slf :=
    self (ExampleHost.ipl_state "scene.ipl" 100 None
            (ExampleHost.disk_with ∅ 0)) in
  let mapping := ExportAsIPL.mapping_loop objs Dict.empty 100 in
  (ExportAsIPL.inst_id (ExportAsIPL.inst_of slf mapping o1)
   = ExportAsIPL.inst_id (ExportAsIPL.inst_of slf mapping o2)
   ↔ ipl_name o1 = ipl_name o2)
  ∧ NoDup (ExportAsIDE.entry_id
             <$> Dict.values (ExportAsIDE.unique_loop objs Dict.empty 100)).
Proof.
  intros o1 o2 objs slf.
  apply (@same_id_iff_same_name ExampleHost.host slf objs 100 o1 o2).
  - apply list_elem_of_here.
  - do 2 apply list_elem_of_further. apply list_elem_of_here.
Defined.

(** ** Exporting again *)

Section reexport.
Context `{Host}.


End reexport.


(** ** [BatchSetTXD] *)

Lemma lstrip_blank s : BatchSetTXD.blank s = true → BatchSetTXD.lstrip s = "".
Proof.
  induction s as [|a s IH]; [done |]. cbn.
  intros [Ha Hs]%andb_true_iff. rewrite Ha. by apply IH.
Qed.

Lemma first_seen_fmap_same_key {A} (key : A → string) (f : A → A) l :
  (∀ a, key (f a) = key a) →
  first_seen key (f <$> l) = f <$> first_seen key l.
Proof.
  intros Hf. induction l as [|a l IH]; [done |].
  cbn [fmap list_fmap first_seen]. f_equal. rewrite IH, (Hf a). clear IH.
  induction (first_seen key l) as [|b t IHt]; [done |].
  cbn [fmap list_fmap]. rewrite !filter_cons, (Hf b).
  destruct (decide (key b ≠ key a)); cbn [fmap list_fmap]; by rewrite IHt.
Qed.

Section batch_txd.
Context `{Host}.
Implicit Types (objs selected : list Object).

Lemma batch_loop_run txd objs count :
  BatchSetTXD.loop txd objs count
  = (retagged txd <$> objs,
     count + Z.of_nat (length (filter (λ o, is_mesh o = true) objs))).
Proof.
  revert count. induction objs as [|o objs IH]; intros count.
  - cbn. by rewrite Z.add_0_r.
  - cbn [BatchSetTXD.loop]. rewrite !IH, filter_cons. unfold retagged at 1 3.
    cbn [fmap list_fmap]. destruct (is_mesh o) eqn:E.
    + rewrite decide_True by done. cbn [length]. f_equal. lia.
    + by rewrite decide_False by done.
Qed.

Lemma retagged_is_mesh txd o : is_mesh (retagged txd o) = is_mesh o.
Proof. unfold retagged. by destruct (is_mesh o) eqn:E. Qed.

Lemma retagged_base_name txd o : base_name (retagged txd o) = base_name o.
Proof. unfold retagged. by destruct (is_mesh o). Qed.

Lemma retagged_meshes txd objs :
  filter (λ o, is_mesh o = true) (retagged txd <$> objs)
  = (λ o, BatchSetTXD.set_texture_name o txd)
      <$> filter (λ o, is_mesh o = true) objs.
Proof.
  induction objs as [|o objs IH]; [done |].
  cbn [fmap list_fmap]. rewrite !filter_cons, retagged_is_mesh.
  destruct (decide (is_mesh o = true)) as [E|E]; [| done].
  cbn [fmap list_fmap]. rewrite IH. f_equal. unfold retagged. by rewrite E.
Qed.

(** X16: a TXD name made of white space only is refused: the operator
    warns, returns [CANCELLED] and leaves every selected object as it
    was. *)
Theorem batch_txd_rejects_blank_name (name : string) selected :
  BatchSetTXD.blank name = true →
  BatchSetTXD.execute name selected
  = (CANCELLED, (WARNING, "TXD name is empty."), selected).
Proof.
  intros Hb. unfold BatchSetTXD.execute, BatchSetTXD.strip.
  by rewrite (lstrip_blank _ Hb).
Qed.

(** X17: with a name that is not empty once stripped, the operator
    finishes, reports the number of mesh objects, and gives each selected
    mesh object the stripped name as texture name; objects of another type
    keep theirs, and nothing else of any object changes: name, type,
    collections, world matrix, draw distance and flag stay. *)
Theorem batch_txd_sets_meshes_only (name : string) selected :
  BatchSetTXD.strip name ≠ "" →
  let txd := BatchSetTXD.strip name in
  let r := BatchSetTXD.execute name selected in
  r.1.1 = FINISHED
  ∧ r.1.2
    = (INFO,
       "Set TXD '" +:+ txd +:+ "' for "
       +:+ pretty (Z.of_nat (length (filter (λ o, is_mesh o = true) selected)))
       +:+ " objects.")
  ∧ Forall2 (λ o o',
      obj_name o' = obj_name o ∧ obj_type o' = obj_type o
      ∧ users_collection o' = users_collection o
      ∧ matrix_world o' = matrix_world o
      ∧ ide_flag (ide_flags o') = ide_flag (ide_flags o)
      ∧ render_distance (ide_flags o') = render_distance (ide_flags o)
      ∧ texture_name (ide_flags o')
        = (if is_mesh o then txd else texture_name (ide_flags o)))
      selected r.2.
Proof.
  intros Hne txd r. subst r. unfold BatchSetTXD.execute. fold txd.
  rewrite bool_decide_eq_false_2 by done. rewrite batch_loop_run. cbn.
  rewrite Z.add_0_l. split; [reflexivity |]. split; [reflexivity |].
  apply Forall2_fmap_r, Forall_Forall2_diag, Forall_forall.
  intros o _. unfold compose, retagged.
  destruct (is_mesh o); by repeat split.
Qed.

(** X18: setting the TXD and then exporting: the IDE dictionary built over
    the selection as [BatchSetTXD] leaves it has the names, ids, draw
    distances and flags it had before, and the stripped TXD name in every
    record. *)
Theorem batch_txd_then_ide_export (name : string) (context : Context)
    (start : Z) :
  BatchSetTXD.strip name ≠ "" →
  let txd := BatchSetTXD.strip name in
  let after :=
    with_selection context
      (BatchSetTXD.execute name (selected_objects context)).2 in
  ExportAsIDE.unique_loop (meshes after) Dict.empty start
  = prod_map id (with_texture txd)
      <$> ExportAsIDE.unique_loop (meshes context) Dict.empty start.
Proof.
  intros Hne txd after. subst after.
  unfold BatchSetTXD.execute. fold txd.
  rewrite bool_decide_eq_false_2 by done. rewrite batch_loop_run.
  unfold meshes, with_selection. cbn [snd selected_objects].
  rewrite retagged_meshes, !unique_loop_alloc, !alloc_empty.
  rewrite (first_seen_fmap_same_key base_name) by done.
  rewrite imap_fmap, fmap_imap. by apply imap_ext.
Qed.

End batch_txd.

Lemma batch_txd_rejects_blank_name_witness :
  let selected := [ExampleHost.mesh "Wall" []; ExampleHost.camera "Camera"] in
  BatchSetTXD.execute (String "009" "  ") selected
  = (CANCELLED, (WARNING, "TXD name is empty."), selected).
Proof.
  intros selected.
  apply (@batch_txd_rejects_blank_name ExampleHost.host
           (String "009" "  ") selected).
  reflexivity.
Defined.

Lemma batch_txd_sets_meshes_only_witness :
  let selected := [ExampleHost.mesh "Wall" []; ExampleHost.camera "Camera"] in
  let r := BatchSetTXD.execute " bricks " selected in
  r.1.1 = FINISHED
  ∧ r.1.2 = (INFO, "Set TXD 'bricks' for 1 objects.")
  ∧ Forall2 (λ o o',
      obj_name o' = obj_name o ∧ obj_type o' = obj_type o
      ∧ users_collection o' = users_collection o
      ∧ matrix_world o' = matrix_world o
      ∧ ide_flag (ide_flags o') = ide_flag (ide_flags o)
      ∧ render_distance (ide_flags o') = render_distance (ide_flags o)
      ∧ texture_name (ide_flags o')
        = (if is_mesh o then "bricks" else texture_name (ide_flags o)))
      selected r.2.
Proof.
  intros selected.
  apply (@batch_txd_sets_meshes_only ExampleHost.host " bricks " selected).
  vm_compute. discriminate.
Defined.

Lemma batch_txd_then_ide_export_witness :
  let context :=
    ExampleHost.context
      [ExampleHost.mesh "Wall.003" []; ExampleHost.camera "Camera";
       ExampleHost.mesh "Gate" []] (Some 4542) in
  let after :=
    with_selection context
      (BatchSetTXD.execute " bricks " (selected_objects context)).2 in
  ExportAsIDE.unique_loop (meshes after) Dict.empty 100
  = [("Wall", (100, "bricks", 299, "0")); ("Gate", (101, "bricks", 299, "0"))].
Proof.
  intros context.
  apply (@batch_txd_then_ide_export ExampleHost.host " bricks " context 100).
  vm_compute. discriminate.
Defined.

(** ** From [invoke] to [execute] *)

Section invoke_facts.
Context `{Host}.

(** X19: through the file dialog the scene setting overrides the operator's
    model id when that is 0 or 4542: with [gtass_model_id] registered,
    [invoke] returns [RUNNING_MODAL], touches neither files, reports nor the
    path, and the [execute] that follows allocates from the scene setting
    if the model id was 0 or 4542 (even when the user had typed 4542) and
    from the model id otherwise. *)
Theorem invoke_then_execute_start_id (context : Context)
    (st_ide : St ExportAsIDE.props) (st_ipl : St ExportAsIPL.props) (v : Z) :
  gtass_model_id (scene context) = Some v →
  let r_ide := ide_invoke context st_ide in
  let r_ipl := ipl_invoke context st_ipl in
  let chosen (mid : Z) :=
    if bool_decide (mid = 0) || bool_decide (mid = 4542) then v else mid in
  (r_ide.1 = inr RUNNING_MODAL
   ∧ disk r_ide.2 = disk st_ide ∧ reports r_ide.2 = reports st_ide
   ∧ ExportAsIDE.filepath (self r_ide.2) = ExportAsIDE.filepath (self st_ide)
   ∧ ExportAsIDE.start_id (self r_ide.2) context
     = chosen (ExportAsIDE.model_id (self st_ide)))
  ∧ (r_ipl.1 = inr RUNNING_MODAL
     ∧ disk r_ipl.2 = disk st_ipl ∧ reports r_ipl.2 = reports st_ipl
     ∧ ExportAsIPL.filepath (self r_ipl.2)
       = ExportAsIPL.filepath (self st_ipl)
     ∧ ExportAsIPL.start_id (self r_ipl.2) context
       = inr (chosen (ExportAsIPL.model_id (self st_ipl)))).
Proof.
  intros Hv r_ide r_ipl chosen. subst r_ide r_ipl chosen.
  unfold ide_invoke, ipl_invoke. rewrite !bind_run. cbn [get_self].
  rewrite Hv. split.
  - unfold ExportAsIDE.start_id, int_or.
    destruct (bool_decide (ExportAsIDE.model_id (self st_ide) = 0)
              || bool_decide (ExportAsIDE.model_id (self st_ide) = 4542))
      eqn:E; rewrite !bind_run; cbn.
    + rewrite Hv. cbn. repeat split. by destruct (bool_decide (v = 0)).
    + apply orb_false_iff in E as [E _]. by rewrite E.
  - unfold ExportAsIPL.start_id.
    destruct (bool_decide (ExportAsIPL.model_id (self st_ipl) = 0)
              || bool_decide (ExportAsIPL.model_id (self st_ipl) = 4542))
      eqn:E; rewrite !bind_run; cbn.
    + rewrite Hv. repeat split. by destruct (bool_decide (v = 0)).
    + apply orb_false_iff in E as [E _]. by rewrite E.
Qed.

End invoke_facts.

Lemma invoke_then_execute_start_id_witness :
  let context := ExampleHost.context [] (Some 5000) in
  let st_ide :=
    ExampleHost.ide_state "scene.ide" 4542 (ExampleHost.disk_with ∅ 0) in
  let st_ipl :=
    ExampleHost.ipl_state "scene.ipl" 700 None (ExampleHost.disk_with ∅ 0) in
  let r_ide := ide_invoke context st_ide in
  let r_ipl := ipl_invoke context st_ipl in
  (r_ide.1 = inr RUNNING_MODAL
   ∧ disk r_ide.2 = disk st_ide ∧ reports r_ide.2 = reports st_ide
   ∧ ExportAsIDE.filepath (self r_ide.2) = "scene.ide"
   ∧ ExportAsIDE.start_id (self r_ide.2) context = 5000)
  ∧ (r_ipl.1 = inr RUNNING_MODAL
     ∧ disk r_ipl.2 = disk st_ipl ∧ reports r_ipl.2 = reports st_ipl
     ∧ ExportAsIPL.filepath (self r_ipl.2) = "scene.ipl"
     ∧ ExportAsIPL.start_id (self r_ipl.2) context = inr 700).
Proof.
  intros context st_ide st_ipl.
  apply (@invoke_then_execute_start_id ExampleHost.host context
           st_ide st_ipl 5000).
  reflexivity.
Defined.

(** ** Growing the selection *)

Lemma dict_get_app_l {V} k (d1 d2 : Dict.t V) v :
  Dict.get k d1 = Some v → Dict.get k (d1 ++ d2) = Some v.
Proof.
  induction d1 as [|[k' v'] d1 IH]; [done |]. cbn.
  case_bool_decide; [done | apply IH].
Qed.

Lemma alloc_app_prefix {A V} (key : A → string) (val : Z → A → V)
    (l1 l2 : list A) cur :
  alloc key val l1 Dict.empty cur `prefix_of`
  alloc key val (l1 ++ l2) Dict.empty cur.
Proof.
  rewrite !alloc_empty, first_seen_app, imap_app. by eexists.
Qed.

Section growing.
Context `{Host}.

(** X20: objects added at the end of the selection do not disturb the ids
    given before: the dictionaries of both exporters over the longer
    selection begin with the dictionaries over the shorter one, so every
    object of the shorter selection keeps its placement id. *)
Theorem ids_stable_when_selection_grows (slf : ExportAsIPL.props)
    (objs more : list Object) (start : Z) :
  ExportAsIDE.unique_loop objs Dict.empty start `prefix_of`
    ExportAsIDE.unique_loop (objs ++ more) Dict.empty start
  ∧ ExportAsIPL.mapping_loop objs Dict.empty start `prefix_of`
      ExportAsIPL.mapping_loop (objs ++ more) Dict.empty start
  ∧ Forall (λ o,
      ExportAsIPL.inst_id
        (ExportAsIPL.inst_of slf
           (ExportAsIPL.mapping_loop (objs ++ more) Dict.empty start) o)
      = ExportAsIPL.inst_id
          (ExportAsIPL.inst_of slf
             (ExportAsIPL.mapping_loop objs Dict.empty start) o)) objs.
Proof.
  split; [| split].
  - rewrite !unique_loop_alloc. apply alloc_app_prefix.
  - rewrite !mapping_loop_alloc. apply alloc_app_prefix.
  - apply Forall_forall. intros o Ho.
    destruct (inst_id_allocated slf objs start o Ho) as (j & _ & Hget & _).
    cbn zeta in Hget. cbn [ExportAsIPL.inst_of ExportAsIPL.inst_name] in Hget.
    unfold ExportAsIPL.inst_of. cbn [ExportAsIPL.inst_id].
    destruct (alloc_app_prefix ipl_name (λ cur _, cur) objs more start)
      as [rest Hrest].
    rewrite <- !mapping_loop_alloc in Hrest. rewrite Hrest.
    by rewrite (dict_get_app_l _ _ _ _ Hget), Hget.
Qed.

End growing.
